(** * saged/utils.py: sample selection and class balancing

    A shallow embedding of the pure helpers of [saged/utils.py] and the
    properties its specification states about them.

    Conventions of the embedding:
    - a Python [dict] read by key is a [gmap]; a [dict] that is iterated
      and whose order matters is an association list in iteration order;
    - a Python [set] of strings is a [gset string];
    - a Python exception is a value [Raise e] of the [result] type;
    - Python's [int] is [Z]; a finite [float] is the rational number it
      denotes, and an operation on floats rounds its exact result to
      binary64 (module [Binary64]); module [Balance] is
      [determine_subset_fraction] with the rounding left out, the exact
      arithmetic in which the specification derives its formulas, and
      module [Balance64] is the function as Python runs it;
    - a Python [str] whose characters are inspected is the list of its
      code points (module [Unicode]); module [Str] is the same string
      methods on ASCII text only; sample ids, labels and study names,
      which the code only compares and stores, are [string]s. *)

From Stdlib Require Import ZArith QArith Qfield Qround Qpower Qreduction.
From Stdlib Require Import Lia Lqa Ascii.
From Stdlib Require Floats.PrimFloat Floats.FloatOps Floats.SpecFloat.
From stdpp Require Import gmap strings list sorting.

Set Default Proof Using "Type".

(** ** Exceptions *)

Inductive exn : Set :=
  | ZeroDivisionError
  | UnboundLocalError
  | KeyError
  | IndexError
  | AssertionError
  | ValueError.

Inductive result (A : Type) : Type :=
  | Ok (a : A)
  | Raise (e : exn).
Arguments Ok {A} a.
Arguments Raise {A} e.

#[global] Instance result_ret : MRet result := λ A a, Ok a.
#[global] Instance result_bind : MBind result := λ A B k r,
  match r with
  | Ok a => k a
  | Raise e => Raise e
  end.

Definition returns {A : Type} (r : result A) : Prop := ∃ a, r = Ok a.

(** ** Class-balance corrector in exact rational arithmetic *)

Module Balance.
Local Open Scope Q_scope.

(** Python's [a / b]: raises on a zero divisor. *)
Definition true_div (a b : Q) : result Q :=
  if Qeq_bool b 0 then Raise ZeroDivisionError else Ok (a / b).

(** Python's [a > b] and [a < b]. *)
Definition gt (a b : Q) : bool := negb (Qle_bool a b).
Definition lt (a b : Q) : bool := negb (Qle_bool b a).

(** [determine_subset_fraction], utils.py lines 370-404.  The local
    [subset_fraction] is bound in the two branches only: reading it at
    the [return] when neither was taken raises [UnboundLocalError]. *)
Definition determine_subset_fraction
    (train_positive train_negative val_positive val_negative : Z) : result Q :=
  train_disease_fraction ←
    true_div (inject_Z train_positive) (inject_Z (train_negative + train_positive));
  val_disease_fraction ←
    true_div (inject_Z val_positive) (inject_Z (val_positive + val_negative));
  if gt train_disease_fraction val_disease_fraction then
    target ← true_div (val_disease_fraction * inject_Z train_negative)
                      (1 - val_disease_fraction);
    subset_fraction ← true_div target (inject_Z train_positive);
    Ok subset_fraction
  else if lt train_disease_fraction val_disease_fraction then
    target ← true_div (inject_Z train_positive
                        - val_disease_fraction * inject_Z train_positive)
                      val_disease_fraction;
    subset_fraction ← true_div target (inject_Z train_negative);
    Ok subset_fraction
  else Raise UnboundLocalError.

(** The two class ratios of the specification. *)
Definition r_train (train_pos train_neg : Z) : Q :=
  inject_Z train_pos / inject_Z (train_pos + train_neg).
Definition r_val (val_pos val_neg : Z) : Q :=
  inject_Z val_pos / inject_Z (val_pos + val_neg).

(** Non-negative counts, both pools non-empty. *)
Definition counts (tp tn vp vn : Z) : Prop :=
  (0 ≤ tp ∧ 0 ≤ tn ∧ 0 ≤ vp ∧ 0 ≤ vn ∧ 0 < tp + tn ∧ 0 < vp + vn)%Z.

End Balance.

(** ** Binary64 arithmetic

    A finite [float] is the rational number it denotes.  An operation
    computes its exact result and rounds it to the nearest number with a
    53-bit significand, ties to the even significand: what IEEE 754
    prescribes for binary64 and what CPython does for [int / int]
    (correctly rounded) and for [float * int], [int - float] and
    [float / int] (the [int] is converted first, with the same
    rounding).  The exponent is not bounded: the model is binary64 as
    long as no result overflows or is subnormal. *)

Module Binary64.
Local Open Scope Q_scope.

(** [floor (log2 x)] for a positive rational. *)
Definition ilog2 (x : Q) : Z :=
  let k := (Z.log2 (Qnum x) - Z.log2 (Zpos (Qden x)))%Z in
  if Qle_bool (2 ^ k) x then k else (k - 1)%Z.

(** The nearest integer, ties to the even one. *)
Definition rne (q : Q) : Z :=
  let f := Qfloor q in
  match Qcompare (q - inject_Z f) (1 # 2) with
  | Lt => f
  | Gt => (f + 1)%Z
  | Eq => if Z.even f then f else (f + 1)%Z
  end.

(** The nearest number with a 53-bit significand, for a positive [x]. *)
Definition round_pos (x : Q) : Q :=
  let e := (ilog2 x - 52)%Z in
  Qred (inject_Z (rne (x / 2 ^ e)) * 2 ^ e).

(** Rounding to binary64, round-to-nearest-even. *)
Definition round (x : Q) : Q :=
  match Qcompare x 0 with
  | Eq => 0
  | Gt => round_pos x
  | Lt => Qred (- round_pos (- x))
  end.

Definition of_int (z : Z) : Q := round (inject_Z z).
Definition mul (a b : Q) : Q := round (a * b).
Definition sub (a b : Q) : Q := round (a - b).
Definition div (a b : Q) : result Q :=
  if Qeq_bool b 0 then Raise ZeroDivisionError else Ok (round (a / b)).
Definition int_true_div (a b : Z) : result Q :=
  if (b =? 0)%Z then Raise ZeroDivisionError
  else Ok (round (inject_Z a / inject_Z b)).
Definition gt (a b : Q) : bool := negb (Qle_bool a b).
Definition lt (a b : Q) : bool := negb (Qle_bool b a).

End Binary64.

(** ** Class-balance corrector in binary64 *)

Module Balance64.
Import Binary64.
Local Open Scope Q_scope.

(** [determine_subset_fraction], utils.py lines 370-404, as Python runs
    it: every quotient, product and difference is rounded. *)
Definition determine_subset_fraction
    (train_positive train_negative val_positive val_negative : Z) : result Q :=
  train_disease_fraction ←
    int_true_div train_positive (train_negative + train_positive);
  val_disease_fraction ←
    int_true_div val_positive (val_positive + val_negative);
  if gt train_disease_fraction val_disease_fraction then
    target ← div (mul val_disease_fraction (of_int train_negative))
                 (sub (of_int 1) val_disease_fraction);
    subset_fraction ← div target (of_int train_positive);
    Ok subset_fraction
  else if lt train_disease_fraction val_disease_fraction then
    target ← div (sub (of_int train_positive)
                      (mul val_disease_fraction (of_int train_positive)))
                 val_disease_fraction;
    subset_fraction ← div target (of_int train_negative);
    Ok subset_fraction
  else Raise UnboundLocalError.

(** The two class ratios as the function computes them. *)
Definition r_train (train_pos train_neg : Z) : Q :=
  round (inject_Z train_pos / inject_Z (train_pos + train_neg)).
Definition r_val (val_pos val_neg : Z) : Q :=
  round (inject_Z val_pos / inject_Z (val_pos + val_neg)).

(** Non-negative counts, both pools non-empty, neither above [2^53]. *)
Definition counts (tp tn vp vn : Z) : Prop :=
  (0 ≤ tp ∧ 0 ≤ tn ∧ 0 ≤ vp ∧ 0 ≤ vn ∧
   0 < tp + tn ≤ 2 ^ 53 ∧ 0 < vp + vn ≤ 2 ^ 53)%Z.

(** The fraction of the first branch, lines 396-397:
    [(val_disease_fraction * train_negative) / (1 - val_disease_fraction)
     / train_positive], every operation rounded. *)
Definition keep_positive (r_val : Q) (train_neg train_pos : Z) : Q :=
  round (round (round (r_val * inject_Z train_neg) / round (1 - r_val))
         / inject_Z train_pos).

(** Modelled from the spec: the fraction for the negative class as the
    specification writes it, [(train_pos * (1 - r_val) / r_val) / train_neg],
    every operation rounded. *)
Definition keep_negative (r_val : Q) (train_pos train_neg : Z) : Q :=
  round (round (round (inject_Z train_pos * round (1 - r_val)) / r_val)
         / inject_Z train_neg).

(** The fraction of the second branch, lines 401-402:
    [(train_positive - (val_disease_fraction * train_positive))
     / val_disease_fraction / train_negative], every operation rounded. *)
Definition keep_negative_code (r_val : Q) (train_pos train_neg : Z) : Q :=
  round (round (round (inject_Z train_pos - round (r_val * inject_Z train_pos))
                / r_val)
         / inject_Z train_neg).

End Balance64.


(** ** Class-balance corrector on the primitive floats

    The same function on the binary64 floats of the kernel, to compare
    the rounding of [Binary64] with.  A count is converted to a float
    before it is divided, which is Python's [int / int] for counts up to
    [2^53]. *)

Module Float64.
Import PrimFloat FloatOps SpecFloat.

Definition of_int (z : Z) : float :=
  SF2Prim (binary_normalize prec emax z 0 false).

Definition div (a b : float) : result float :=
  if PrimFloat.eqb b PrimFloat.zero then Raise ZeroDivisionError
  else Ok (PrimFloat.div a b).

Definition int_true_div (a b : Z) : result float :=
  if (b =? 0)%Z then Raise ZeroDivisionError
  else Ok (PrimFloat.div (of_int a) (of_int b)).

Definition determine_subset_fraction
    (train_positive train_negative val_positive val_negative : Z)
    : result float :=
  train_disease_fraction ←
    int_true_div train_positive (train_negative + train_positive);
  val_disease_fraction ←
    int_true_div val_positive (val_positive + val_negative);
  if PrimFloat.ltb val_disease_fraction train_disease_fraction then
    target ← div (PrimFloat.mul val_disease_fraction (of_int train_negative))
                 (PrimFloat.sub (of_int 1) val_disease_fraction);
    subset_fraction ← div target (of_int train_positive);
    Ok subset_fraction
  else if PrimFloat.ltb train_disease_fraction val_disease_fraction then
    target ← div (PrimFloat.sub (of_int train_positive)
                    (PrimFloat.mul val_disease_fraction (of_int train_positive)))
                 val_disease_fraction;
    subset_fraction ← div target (of_int train_negative);
    Ok subset_fraction
  else Raise UnboundLocalError.

(** The rational a finite float denotes. *)
Definition to_Q (f : float) : option Q :=
  match Prim2SF f with
  | S754_zero _ => Some 0%Q
  | S754_finite s m e =>
      Some (Qred ((if s then -1 else 1) * inject_Z (Zpos m) * 2 ^ e))%Q
  | _ => None
  end.

(** The outcome on the floats is the outcome [r] on the rationals. *)
Definition agrees (p : result float) (r : result Q) : bool :=
  match p, r with
  | Ok f, Ok q =>
      match to_Q f with
      | Some q' => Qeq_bool q' q
      | None => false
      end
  | Raise ZeroDivisionError, Raise ZeroDivisionError => true
  | Raise UnboundLocalError, Raise UnboundLocalError => true
  | _, _ => false
  end.

(** All the inputs with counts below [n]. *)
Definition grid (n : nat) : list (Z * Z * Z * Z) :=
  let r := Z.of_nat <$> seq 0 n in
  tp ← r; tn ← r; vp ← r; vn ← r; [(tp, tn, vp, vn)].

Definition agree_at (c : Z * Z * Z * Z) : bool :=
  let '(tp, tn, vp, vn) := c in
  agrees (determine_subset_fraction tp tn vp vn)
         (Balance64.determine_subset_fraction tp tn vp vn).

End Float64.

(** ** Lookups and loops shared by the helpers *)

(** [d[k]] on a dict: [KeyError] when the key is absent. *)
Definition getitem {K V M : Type} `{Lookup K V M} (d : M) (k : K) : result V :=
  match d !! k with
  | Some v => Ok v
  | None => Raise KeyError
  end.

(** [r['field']] on a JSON object whose field may be absent. *)
Definition field {V : Type} (o : option V) : result V :=
  match o with
  | Some v => Ok v
  | None => Raise KeyError
  end.

(** [l[i]] on a list: [IndexError] out of range. *)
Definition index {A : Type} (l : list A) (i : nat) : result A :=
  match l !! i with
  | Some x => Ok x
  | None => Raise IndexError
  end.

(** A [for] loop threading the loop-carried state through a body that
    may raise. *)
Fixpoint for_each {A S : Type} (body : S → A → result S) (l : list A) (s : S)
    : result S :=
  match l with
  | [] => Ok s
  | x :: l' => s' ← body s x; for_each body l' s'
  end.

(** ** Label map loader *)

Module Labels.

(** The loop body [sample_to_label[sample] = label]. *)
Definition write (label : string) (sample_to_label : gmap string string)
    (sample : string) : gmap string string :=
  <[sample := label]> sample_to_label.

(** The loop body [assert sample not in sample_to_label;
    sample_to_label[sample] = label]. *)
Definition checked_write (label : string) (sample_to_label : gmap string string)
    (sample : string) : result (gmap string string) :=
  if decide (sample ∈ dom sample_to_label) then Raise AssertionError
  else Ok (<[sample := label]> sample_to_label).

(** [parse_map_file], utils.py lines 53-74, from the unpickled
    [label_to_sample] on; the dict is given in iteration order. *)
Definition parse_map_file (label_to_sample : list (string * list string))
    : gmap string string :=
  foldl (λ sample_to_label '(label, samples),
           foldl (write label) sample_to_label samples)
        ∅ label_to_sample.

(** [parse_label_file], utils.py lines 182-205: the same loops with the
    assertion before each write. *)
Definition parse_label_file (label_to_sample : list (string * list string))
    : result (gmap string string) :=
  for_each (λ sample_to_label '(label, samples),
              for_each (checked_write label) samples sample_to_label)
           label_to_sample ∅.

(** All sample ids of a label map, in the order the loops visit them. *)
Definition all_samples (label_to_sample : list (string * list string))
    : list string :=
  concat (label_to_sample.*2).

(** A label map is free of duplicates when no sample id is listed twice,
    under one label or under two. *)
Definition duplicate_free (label_to_sample : list (string * list string))
    : Prop :=
  NoDup (all_samples label_to_sample).

(** [sample] is listed under [label]. *)
Definition listed (label_to_sample : list (string * list string))
    (sample label : string) : Prop :=
  ∃ samples, (label, samples) ∈ label_to_sample ∧ sample ∈ samples.

End Labels.

(** ** Python string methods used by tissue extraction (ASCII text) *)

Module Str.

Fixpoint startswith (s prefix : string) : bool :=
  match prefix, s with
  | EmptyString, _ => true
  | String a prefix', String b s' =>
      if decide (a = b) then startswith s' prefix' else false
  | String _ _, EmptyString => false
  end.

(** [needle in s]. *)
Fixpoint contains (needle s : string) : bool :=
  startswith s needle ||
  match s with
  | EmptyString => false
  | String _ s' => contains needle s'
  end.

(** [s.split(sep)] for a one-character separator. *)
Fixpoint split (sep : ascii) (s : string) : list string :=
  match s with
  | EmptyString => [EmptyString]
  | String c s' =>
      if decide (c = sep) then EmptyString :: split sep s'
      else match split sep s' with
           | head :: tail => String c head :: tail
           | [] => [String c EmptyString]
           end
  end.

(** [str.isspace] on one ASCII character: tab, line feed, vertical tab,
    form feed, carriage return, the four separators 28-31 and space. *)
Definition isspace (c : ascii) : bool :=
  let n := N_of_ascii c in
  ((9 <=? n) && (n <=? 13) || (28 <=? n) && (n <=? 32))%N.

Fixpoint lstrip (s : string) : string :=
  match s with
  | EmptyString => EmptyString
  | String c s' => if isspace c then lstrip s' else s
  end.

Fixpoint rstrip (s : string) : string :=
  match s with
  | EmptyString => EmptyString
  | String c s' =>
      match rstrip s' with
      | EmptyString => if isspace c then EmptyString else String c EmptyString
      | r => String c r
      end
  end.

(** [s.strip()]. *)
Definition strip (s : string) : string := rstrip (lstrip s).

Definition lower_char (c : ascii) : ascii :=
  let n := N_of_ascii c in
  if ((65 <=? n) && (n <=? 90))%N then ascii_of_N (n + 32) else c.

(** [s.lower()]. *)
Fixpoint lower (s : string) : string :=
  match s with
  | EmptyString => EmptyString
  | String c s' => String (lower_char c) (lower s')
  end.

End Str.

(** ** Metadata resolver and cohort selector *)

Module Cohort.

Definition BLOOD_KEYS : list string :=
  [ "blood";
    "blood (buffy coat)";
    "blood cells";
    "blood monocytes";
    "blood sample";
    "cells from whole blood";
    "fresh venous blood anticoagulated with 50 g/ml thrombin-inhibitor lepirudin";
    "healthy human blood";
    "host peripheral blood";
    "leukemic peripheral blood";
    "monocytes isolated from pbmc";
    "normal peripheral blood cells";
    "pbmc";
    "pbmcs";
    "peripheral blood";
    "peripheral blood (pb)";
    "peripheral blood mononuclear cell";
    "peripheral blood mononuclear cell (pbmc)";
    "peripheral blood mononuclear cells";
    "peripheral blood mononuclear cells (pbmc)";
    "peripheral blood mononuclear cells (pbmcs)";
    "peripheral blood mononuclear cells (pbmcs) from healthy donors";
    "peripheral maternal blood";
    "peripheral whole blood";
    "periphral blood";
    "pheripheral blood";
    "whole blood";
    "whole blood (wb)";
    "whole blood, maternal peripheral";
    "whole venous blood" ].

(** One entry of a sample's ['refinebio_annotations'] list. *)
Record annotation := Annotation {
  characteristics_ch1 : option (list string)
}.

(** The per-sample record of [metadata['samples']]. *)
Record sample_record := SampleRecord {
  refinebio_annotations : option (list annotation)
}.

(** The aggregated metadata document, as far as cohort selection reads it. *)
Record metadata := Metadata {
  samples : gmap string sample_record
}.

(** The [for characteristic in ch1] loop of [get_tissue]: [Ok (Some t)]
    is the [return tissue] inside the loop, [Ok None] is falling out of
    the loop onto the final [return None]. *)
Fixpoint scan_characteristics (ch1 : list string) : result (option string) :=
  match ch1 with
  | [] => Ok None
  | characteristic :: rest =>
      if Str.contains "tissue:" characteristic then
        tissue ← index (Str.split ":" characteristic) 1;
        Ok (Some (Str.lower (Str.strip tissue)))
      else scan_characteristics rest
  end.

(** No characteristic carries the marker. *)
Definition unmarked (ch1 : list string) : Prop :=
  Forall (λ c, Str.contains "tissue:" c = false) ch1.

(** The body of the [try] block of [get_tissue]. *)
Definition get_tissue_try (sample_metadata : gmap string sample_record)
    (sample : string) : result (option string) :=
  record ← getitem sample_metadata sample;
  annotations ← field (refinebio_annotations record);
  first ← index annotations 0;
  ch1 ← field (characteristics_ch1 first);
  scan_characteristics ch1.

(** [get_tissue], utils.py lines 77-104: [KeyError] and [IndexError] are
    caught and turned into [None]; anything else propagates. *)
Definition get_tissue (sample_metadata : gmap string sample_record)
    (sample : string) : result (option string) :=
  match get_tissue_try sample_metadata sample with
  | Raise KeyError => Ok None
  | Raise IndexError => Ok None
  | r => r
  end.

(** [tissue in BLOOD_KEYS], where [tissue] may be [None]. *)
Definition in_blood_keys (tissue : option string) : bool :=
  match tissue with
  | Some t => bool_decide (t ∈ BLOOD_KEYS)
  | None => false
  end.

(** [get_blood_sample_ids], utils.py lines 107-133. *)
Definition get_blood_sample_ids (metadata : metadata)
    (sample_to_label : gmap string string) : result (gset string) :=
  let sample_metadata := samples metadata in
  let labeled_samples : gset string := dom sample_to_label in
  unlabeled_samples ←
    for_each (λ (unlabeled_samples : gset string) sample,
                tissue ← get_tissue sample_metadata sample;
                if in_blood_keys tissue && bool_decide (sample ∉ labeled_samples)
                then Ok (unlabeled_samples ∪ {[sample]})
                else Ok unlabeled_samples)
             (map_to_list sample_metadata).*1 ∅;
  Ok (labeled_samples ∪ unlabeled_samples).


(** The study of [sample] is known and is one of [studies]. *)
Definition in_studies (studies : gset string)
    (sample_to_study : gmap string string) (sample : string) : Prop :=
  ∃ study, sample_to_study !! sample = Some study ∧ study ∈ studies.

#[global] Instance in_studies_dec studies sample_to_study sample :
  Decision (in_studies studies sample_to_study sample).
Proof.
  unfold in_studies. destruct (sample_to_study !! sample) as [study|].
  - destruct (decide (study ∈ studies)); [left|right]; naive_solver.
  - right. naive_solver.
Defined.

(** [get_samples_in_studies], utils.py lines 275-292: the list
    comprehension appends the samples that pass the test, in order. *)
Definition get_samples_in_studies (samples : list string)
    (studies : gset string) (sample_to_study : gmap string string)
    : result (list string) :=
  for_each (λ subset_samples sample,
              study ← getitem sample_to_study sample;
              if decide (study ∈ studies)
              then Ok (subset_samples ++ [sample])
              else Ok subset_samples)
           samples [].

End Cohort.

(** ** Python strings as sequences of Unicode code points *)

Module Unicode.

(** A [str]: its code points. *)
Abbreviation text := (list N).

(** The text of an ASCII literal. *)
Definition encode (s : string) : text :=
  N_of_ascii <$> Strings.String.list_ascii_of_string s.

(** The code points [str.strip()] removes: those [str.isspace] holds of. *)
Definition WHITESPACE : list N :=
  [9; 10; 11; 12; 13; 28; 29; 30; 31; 32; 133; 160; 5760;
   8192; 8193; 8194; 8195; 8196; 8197; 8198; 8199; 8200; 8201; 8202;
   8232; 8233; 8239; 8287; 12288]%N.

Definition isspace (c : N) : bool := bool_decide (c ∈ WHITESPACE).

Fixpoint lstrip (t : text) : text :=
  match t with
  | [] => []
  | c :: t' => if isspace c then lstrip t' else t
  end.

Definition rstrip (t : text) : text := reverse (lstrip (reverse t)).

(** [t.strip()]. *)
Definition strip (t : text) : text := rstrip (lstrip t).

Fixpoint startswith (t prefix : text) : bool :=
  match prefix, t with
  | [], _ => true
  | a :: prefix', b :: t' =>
      if decide (a = b) then startswith t' prefix' else false
  | _ :: _, [] => false
  end.

(** [needle in t]. *)
Fixpoint contains (needle t : text) : bool :=
  startswith t needle ||
  match t with
  | [] => false
  | _ :: t' => contains needle t'
  end.

(** [t.split(sep)] for a one-character separator. *)
Fixpoint split (sep : N) (t : text) : list text :=
  match t with
  | [] => [[]]
  | c :: t' =>
      if decide (c = sep) then [] :: split sep t'
      else match split sep t' with
           | head :: tail => (c :: head) :: tail
           | [] => [[c]]
           end
  end.

(** [str.lower] on one ASCII code point. *)
Definition ascii_lower (c : N) : N :=
  if ((65 <=? c) && (c <=? 90))%N then (c + 32)%N else c.

(** What is known of [str.lower]: on ASCII text it maps [A]-[Z] to
    [a]-[z] and leaves the rest alone. *)
Definition lowers_ascii (lower : text → text) : Prop :=
  ∀ t, Forall (λ c, (c < 128)%N) t → lower t = ascii_lower <$> t.

(** [needle] occurs in [t]. *)
Definition occurs (needle t : text) : Prop :=
  ∃ before after, t = before ++ needle ++ after.

End Unicode.

(** ** Metadata resolver and cohort selector over Unicode text *)

Module Resolver.
Import Unicode.

(** The marker ['tissue:'] and the separator [':']. *)
Definition MARKER : text := encode "tissue:".
Definition COLON : N := 58%N.

Definition BLOOD_KEYS : list text := encode <$> Cohort.BLOOD_KEYS.

(** The metadata is the JSON document that refine.bio aggregates: a key
    may be absent, and a key that is present holds a value of the type
    given here. *)

(** One entry of a sample's ['refinebio_annotations'] list. *)
Record annotation := Annotation {
  characteristics_ch1 : option (list text)
}.

(** The per-sample record of [metadata['samples']]. *)
Record sample_record := SampleRecord {
  refinebio_annotations : option (list annotation)
}.

(** The aggregated metadata document, as far as cohort selection reads
    it; the key ['samples'] may be absent. *)
Record metadata := Metadata {
  samples : option (gmap string sample_record)
}.

Section resolver.
(** [str.lower], the Unicode lower-casing of the Python runtime. *)
Context (lower : text → text).

(** The [for characteristic in ch1] loop of [get_tissue]. *)
Fixpoint scan_characteristics (ch1 : list text) : result (option text) :=
  match ch1 with
  | [] => Ok None
  | characteristic :: rest =>
      if contains MARKER characteristic then
        tissue ← index (split COLON characteristic) 1;
        Ok (Some (lower (strip tissue)))
      else scan_characteristics rest
  end.

(** The body of the [try] block of [get_tissue]. *)
Definition get_tissue_try (sample_metadata : gmap string sample_record)
    (sample : string) : result (option text) :=
  record ← getitem sample_metadata sample;
  annotations ← field (refinebio_annotations record);
  first ← index annotations 0;
  ch1 ← field (characteristics_ch1 first);
  scan_characteristics ch1.

(** [get_tissue], utils.py lines 77-104. *)
Definition get_tissue (sample_metadata : gmap string sample_record)
    (sample : string) : result (option text) :=
  match get_tissue_try sample_metadata sample with
  | Raise KeyError => Ok None
  | Raise IndexError => Ok None
  | r => r
  end.

(** [tissue in BLOOD_KEYS], where [tissue] may be [None]. *)
Definition in_blood_keys (tissue : option text) : bool :=
  match tissue with
  | Some t => bool_decide (t ∈ BLOOD_KEYS)
  | None => false
  end.

(** [get_blood_sample_ids], utils.py lines 107-133. *)
Definition get_blood_sample_ids (metadata : metadata)
    (sample_to_label : gmap string string) : result (gset string) :=
  sample_metadata ← field (samples metadata);
  let labeled_samples : gset string := dom sample_to_label in
  unlabeled_samples ←
    for_each (λ (unlabeled_samples : gset string) sample,
                tissue ← get_tissue sample_metadata sample;
                if in_blood_keys tissue && bool_decide (sample ∉ labeled_samples)
                then Ok (unlabeled_samples ∪ {[sample]})
                else Ok unlabeled_samples)
             (map_to_list sample_metadata).*1 ∅;
  Ok (labeled_samples ∪ unlabeled_samples).
End resolver.

(** No characteristic contains the marker. *)
Definition unmarked (ch1 : list text) : Prop :=
  Forall (λ c, ¬ occurs MARKER c) ch1.

End Resolver.

(** ** Deterministic shuffle *)

Module Shuffle.
Section shuffle.
(** Elements with the order [sorted] compares them by. *)
Context {A : Type} `{Countable A}.
Context (R : relation A) `{!RelDecision R}.
(** The random state of the [random] module and its [_randbelow]: a
    draw below [n] from the state, and the state after the draw. *)
Context {G : Type} (randbelow : nat → G → nat * G).

(** [sorted(l)]: a stable merge sort. *)
Definition sorted (l : list A) : list A := merge_sort R l.

(** The selection loop of [random.sample] over a list pool, with [m]
    items not yet selected at [pool[0 : m]] and [todo] draws left:
    [j = randbelow(m); result[i] = pool[j]; pool[j] = pool[m - 1]]. *)
Fixpoint sample_pool (pool : list A) (m todo : nat) (g : G)
    : result (list A * G) :=
  match todo with
  | 0 => Ok ([], g)
  | S todo' =>
      let '(j, g') := randbelow m g in
      x ← index pool j;
      vacancy ← index pool (m - 1);
      '(rest, g'') ← sample_pool (<[j := vacancy]> pool) (m - 1) todo' g';
      Ok (x :: rest, g'')
  end.

(** [random.sample(population, k)]; with [k = n] the sampler always
    works on a list copy of the population, which is the branch
    modelled. *)
Definition sample (population : list A) (k : nat) (g : G)
    : result (list A * G) :=
  let n := length population in
  if decide (k ≤ n) then sample_pool population n k g
  else Raise ValueError.

(** [deterministic_shuffle_set], utils.py lines 351-367.  [iteration]
    is [list(set_)]: the elements of [set_] in the order this run
    iterates over the set. *)
Definition deterministic_shuffle_set (set_ : gset A) (iteration : list A)
    (g : G) : result (list A * G) :=
  sample (sorted iteration) (size set_) g.
End shuffle.
End Shuffle.

(** ** Study mapping *)

Module Studies.

(** One entry of [metadata_json['experiments']]. *)
Record experiment := Experiment {
  sample_accession_codes : option (list string)
}.

(** The aggregated metadata document, as far as study mapping reads it;
    the experiments dict is given by its items in iteration order. *)
Record metadata_json := MetadataJson {
  experiments : option (list (string * experiment))
}.

(** The loop body [if accession in id_set:
    sample_to_study[accession] = study]. *)
Definition record_study (id_set : gset string) (study : string)
    (sample_to_study : gmap string string) (accession : string)
    : gmap string string :=
  if decide (accession ∈ id_set) then <[accession := study]> sample_to_study
  else sample_to_study.

(** [map_sample_to_study], utils.py lines 247-272. *)
Definition map_sample_to_study (metadata_json : metadata_json)
    (sample_ids : list string) : result (gmap string string) :=
  studies ← field (experiments metadata_json);
  let id_set : gset string := list_to_set sample_ids in
  for_each (λ sample_to_study '(study, record),
              codes ← field (sample_accession_codes record);
              Ok (foldl (record_study id_set study) sample_to_study codes))
           studies ∅.

(** [study] lists [sample] among its accession codes. *)
Definition lists (studies : list (string * experiment))
    (study sample : string) : Prop :=
  ∃ record codes, (study, record) ∈ studies ∧
                  sample_accession_codes record = Some codes ∧
                  sample ∈ codes.

(** No study lists [sample]. *)
Definition unlisted (studies : list (string * experiment))
    (sample : string) : Prop :=
  ∀ study, ¬ lists studies study sample.

(** Every experiment has its ['sample_accession_codes']. *)
Definition complete (studies : list (string * experiment)) : Prop :=
  Forall (λ entry, is_Some (sample_accession_codes entry.2)) studies.

End Studies.

(** ** Relabelling the outcome of a shuffle *)

Module Relabel.

(** The outcome [r] with every element of the list renamed by [f]. *)
Definition renamed {A B G : Type} (f : A → B) (r : result (list A * G))
    : result (list B * G) :=
  match r with
  | Ok (out, g) => Ok (f <$> out, g)
  | Raise e => Raise e
  end.

End Relabel.

(** * Properties *)

(** ** Label map loader *)

Lemma for_each_cons {A S : Type} (body : S → A → result S) x l s :
  for_each body (x :: l) s = body s x ≫= for_each body l.
Proof. done. Qed.

Lemma bind_Ok {A B : Type} (k : A → result B) a : Ok a ≫= k = k a.
Proof. done. Qed.

Lemma bind_Raise {A B : Type} (k : A → result B) e : Raise e ≫= k = Raise e.
Proof. done. Qed.

Lemma getitem_Some {V : Type} (d : gmap string V) k v :
  d !! k = Some v → getitem d k = Ok v.
Proof. unfold getitem. by intros ->. Qed.

Lemma getitem_None {V : Type} (d : gmap string V) k :
  d !! k = None → getitem d k = Raise KeyError.
Proof. unfold getitem. by intros ->. Qed.

Module LabelsFacts.
Import Labels.

Lemma checked_write_new label (m : gmap string string) s :
  m !! s = None → checked_write label m s = Ok (<[s:=label]> m).
Proof.
  intros Hs. unfold checked_write. case_decide as Hdom; [|done].
  apply elem_of_dom in Hdom as [? ?]. congruence.
Qed.

Lemma checked_write_old label (m : gmap string string) s :
  m !! s ≠ None → checked_write label m s = Raise AssertionError.
Proof.
  intros Hs. unfold checked_write. case_decide as Hdom; [done|].
  by apply not_elem_of_dom in Hdom.
Qed.

(** The checked inner loop from a map [m]: it succeeds exactly when the
    samples are pairwise distinct and new to [m]. *)
Lemma checked_loop_ok label samples (m : gmap string string) :
  NoDup samples → (∀ s, s ∈ samples → m !! s = None) →
  ∃ m', for_each (checked_write label) samples m = Ok m' ∧
        size m' = size m + length samples ∧
        ∀ s, m' !! s = if decide (s ∈ samples) then Some label else m !! s.
Proof.
  revert m. induction samples as [|x samples IH]; intros m Hnd Hnew.
  { exists m. split_and!; [done|cbn; lia|]. intros s. by rewrite decide_False by set_solver. }
  apply NoDup_cons in Hnd as [Hx Hnd].
  rewrite for_each_cons, checked_write_new, bind_Ok by set_solver.
  destruct (IH (<[x:=label]> m)) as (m' & -> & Hsz & Hm'); [done| |].
  { intros s Hs. rewrite lookup_insert_ne; [apply Hnew|]; set_solver. }
  exists m'. split_and!; [done| |].
  - rewrite Hsz, map_size_insert_None by (apply Hnew; set_solver). cbn. lia.
  - intros s. rewrite Hm'. destruct (decide (s = x)) as [->|Hne].
    + rewrite decide_False, lookup_insert_eq by done.
      by rewrite decide_True by set_solver.
    + rewrite lookup_insert_ne by done.
      destruct (decide (s ∈ samples)).
      * by rewrite decide_True by set_solver.
      * by rewrite decide_False by set_solver.
Qed.

Lemma classic_loop label samples (m : gmap string string) :
  (NoDup samples ∧ ∀ s, s ∈ samples → m !! s = None) ∨
  for_each (checked_write label) samples m = Raise AssertionError.
Proof.
  revert m. induction samples as [|x samples IH]; intros m.
  { left. split; [constructor|set_solver]. }
  rewrite for_each_cons. destruct (m !! x) as [old|] eqn:Hx.
  { right. rewrite checked_write_old; [done|congruence]. }
  rewrite checked_write_new, bind_Ok by done.
  destruct (IH (<[x:=label]> m)) as [[Hnd Hnew]|Hfail]; [left|by right].
  split.
  - apply NoDup_cons. split; [|done]. intros Hin.
    specialize (Hnew x Hin). by rewrite lookup_insert_eq in Hnew.
  - intros s [->|Hs]%elem_of_cons; [done|].
    specialize (Hnew s Hs). destruct (decide (x = s)) as [->|].
    + by rewrite lookup_insert_eq in Hnew.
    + by rewrite lookup_insert_ne in Hnew.
Qed.

Lemma checked_loop_fail label samples (m : gmap string string) :
  ¬ (NoDup samples ∧ ∀ s, s ∈ samples → m !! s = None) →
  for_each (checked_write label) samples m = Raise AssertionError.
Proof. intros Hbad. by destruct (classic_loop label samples m). Qed.

(** The two nested checked loops from a map [m]. *)
Lemma checked_loops_ok l (m : gmap string string) :
  NoDup (all_samples l) → (∀ s, s ∈ all_samples l → m !! s = None) →
  ∃ m', for_each (λ m '(label, samples),
                    for_each (checked_write label) samples m) l m = Ok m' ∧
        size m' = size m + length (all_samples l) ∧
        ∀ s label, m' !! s = Some label ↔
                   listed l s label ∨ m !! s = Some label.
Proof.
  unfold all_samples, listed.
  revert m. induction l as [|[label samples] l IH]; intros m Hnd Hnew.
  { exists m. split_and!; [done|cbn; lia|]. intros s lbl. split; [auto|].
    intros [(? & []%elem_of_nil & _)|]; done. }
  cbn in Hnd, Hnew. apply NoDup_app in Hnd as (Hnd1 & Hdisj & Hnd2).
  rewrite for_each_cons.
  destruct (checked_loop_ok label samples m) as (m1 & -> & Hsz1 & Hm1);
    [done|set_solver|].
  rewrite bind_Ok. destruct (IH m1) as (m' & -> & Hsz & Hm'); [done| |].
  { intros s Hs. rewrite Hm1, decide_False; [apply Hnew; set_solver|].
    intros ?. by eapply Hdisj. }
  exists m'. split_and!; [done|cbn; rewrite Hsz, Hsz1, length_app; lia|].
  intros s lbl. rewrite Hm', Hm1. split.
  - intros [(ss & Hin & Hs)|Hm].
    + left. exists ss. set_solver.
    + case_decide; [|by right]. left. exists samples. set_solver.
  - intros [(ss & [Heq|Hin]%elem_of_cons & Hs)|Hm].
    + simplify_eq. right. by rewrite decide_True.
    + left. by exists ss.
    + right. rewrite decide_False; [done|].
      intros Hs. rewrite Hnew in Hm; [done|set_solver].
Qed.

Lemma checked_loops_fail l (m : gmap string string) :
  ¬ (NoDup (all_samples l) ∧ ∀ s, s ∈ all_samples l → m !! s = None) →
  for_each (λ m '(label, samples),
              for_each (checked_write label) samples m) l m
  = Raise AssertionError.
Proof.
  unfold all_samples.
  revert m. induction l as [|[label samples] l IH]; intros m Hbad.
  { destruct Hbad. split; [constructor|set_solver]. }
  rewrite for_each_cons.
  destruct (classic_loop label samples m) as [[Hnd Hnew]|Hfail];
    last by rewrite Hfail.
  destruct (checked_loop_ok label samples m) as (m1 & -> & _ & Hm1);
    [done..|].
  rewrite bind_Ok. apply IH. intros [Hnd' Hnew']. apply Hbad. cbn. split.
  - apply NoDup_app. split_and!; [done| |done].
    intros s Hs Hs'. specialize (Hnew' s Hs').
    by rewrite Hm1, decide_True in Hnew'.
  - intros s [Hs|Hs]%elem_of_app; [by apply Hnew|].
    specialize (Hnew' s Hs). rewrite Hm1 in Hnew'. by case_decide.
Qed.

(** The asserting loader on a label map without duplicates: it returns
    a mapping with one entry per listed sample, each sample mapped to the
    label it is listed under. *)
Lemma parse_label_file_duplicate_free l :
  duplicate_free l →
  ∃ m, parse_label_file l = Ok m ∧
       size m = length (all_samples l) ∧
       ∀ s label, m !! s = Some label ↔ listed l s label.
Proof.
  intros Hnd.
  destruct (checked_loops_ok l ∅ Hnd) as (m & Hm & Hsz & Hlook); [done|].
  exists m. split_and!; [done|by rewrite Hsz, map_size_empty|].
  intros s label. rewrite Hlook, lookup_empty. naive_solver.
Qed.

(** The asserting loader on a label map with a duplicate sample id. *)
Lemma parse_label_file_duplicate l :
  ¬ duplicate_free l → parse_label_file l = Raise AssertionError.
Proof.
  intros Hdup. apply checked_loops_fail. by intros [? _].
Qed.

(** Whenever the checked loops succeed, they compute what the unchecked
    loops compute. *)
Lemma checked_loops_agree l (m : gmap string string) :
  returns (for_each (λ m '(label, samples),
                       for_each (checked_write label) samples m) l m) →
  for_each (λ m '(label, samples),
              for_each (checked_write label) samples m) l m
  = Ok (foldl (λ m '(label, samples), foldl (write label) m samples) m l).
Proof.
  assert (∀ label samples (m : gmap string string),
            returns (for_each (checked_write label) samples m) →
            for_each (checked_write label) samples m
            = Ok (foldl (write label) m samples)) as Hinner.
  { intros label samples. induction samples as [|x samples IH]; intros m0; [done|].
    rewrite for_each_cons. destruct (m0 !! x) as [old|] eqn:Hx.
    - rewrite checked_write_old by congruence. by intros [? ?].
    - rewrite checked_write_new, bind_Ok by done. apply IH. }
  revert m. induction l as [|[label samples] l IH]; intros m; [done|].
  rewrite for_each_cons.
  destruct (for_each (checked_write label) samples m) as [m1|e] eqn:E.
  - rewrite Hinner in E by (by eexists). simplify_eq. rewrite bind_Ok. apply IH.
  - by intros [? ?].
Qed.

Lemma parse_label_file_parse_map_file l :
  duplicate_free l → parse_label_file l = Ok (parse_map_file l).
Proof.
  intros Hnd. apply checked_loops_agree.
  destruct (parse_label_file_duplicate_free l Hnd) as (m & Hm & _).
  by exists m.
Qed.

End LabelsFacts.

Module LabelsSpec.
Import Labels LabelsFacts.

(** C6 (the code at the failing input). A sample id listed under two
    labels: [parse_map_file] returns a mapping that keeps the later
    label, where [parse_label_file] fails its assertion. *)
Theorem parse_map_file_overwrites :
  ¬ duplicate_free [("sepsis", ["GSM1"]); ("healthy", ["GSM1"])] ∧
  parse_map_file [("sepsis", ["GSM1"]); ("healthy", ["GSM1"])]
    = {[ "GSM1" := "healthy" ]} ∧
  parse_label_file [("sepsis", ["GSM1"]); ("healthy", ["GSM1"])]
    = Raise AssertionError.
Proof.
  split_and!.
  - unfold duplicate_free. cbn. intros [Hx _]%NoDup_cons. set_solver.
  - unfold parse_map_file, write. cbn. apply insert_insert_eq.
  - reflexivity.
Qed.

End LabelsSpec.

(** ** Tissue extraction *)

Module StrFacts.
Import Str.

Lemma startswith_append s prefix :
  startswith s prefix = true → ∃ rest, s = prefix +:+ rest.
Proof.
  revert s. induction prefix as [|a prefix IH]; intros s Hs.
  { by exists s. }
  destruct s as [|b s]; [done|]. cbn in Hs. case_decide; [subst|done].
  destruct (IH s Hs) as [rest ->]. by exists rest.
Qed.

Lemma contains_append needle s :
  contains needle s = true → ∃ before after, s = before +:+ needle +:+ after.
Proof.
  induction s as [|c s IH]; cbn [contains];
    intros [Hs|Hs]%orb_true_iff; try done.
  - apply startswith_append in Hs as [rest ->]. by exists "", rest.
  - apply startswith_append in Hs as [rest ->]. by exists "", rest.
  - destruct (IH Hs) as (before & after & ->). by exists (String c before), after.
Qed.

Lemma split_nonempty sep s : ∃ head tail, split sep s = head :: tail.
Proof.
  induction s as [|c s (head & tail & IH)]; cbn; [by eexists _, _|].
  case_decide; [by eexists _, _|]. rewrite IH. by eexists _, _.
Qed.

(** A string with a separator in it has a second field. *)
Lemma split_second sep before after :
  ∃ second, split sep (before +:+ String sep after) !! 1 = Some second.
Proof.
  induction before as [|c before [second IH]].
  - change ("" +:+ String sep after) with (String sep after). cbn.
    rewrite decide_True by done.
    destruct (split_nonempty sep after) as (head & tail & ->). by exists head.
  - change (String c before +:+ String sep after)
      with (String c (before +:+ String sep after)).
    cbn [split]. case_decide.
    + destruct (split_nonempty sep (before +:+ String sep after))
        as (head & tail & ->).
      by exists head.
    + destruct (split sep (before +:+ String sep after)) as [|head tail];
        [done|].
      by exists second.
Qed.

(** A characteristic with the marker in it has a second [:]-field. *)
Lemma marker_second c :
  contains "tissue:" c = true → ∃ second, split ":" c !! 1 = Some second.
Proof.
  intros (before & after & ->)%contains_append.
  change ("tissue:" +:+ after) with ("tissue" +:+ String ":" after).
  generalize (split_second ":" (before +:+ "tissue") after).
  assert (∀ a b c : string, (a +:+ b) +:+ c = a +:+ b +:+ c) as Hassoc.
  { intros a b c'. induction a as [|x a IH]; [done|].
    change (String x (a +:+ b) +:+ c' = String x (a +:+ b +:+ c')).
    by rewrite <- IH. }
  by rewrite Hassoc.
Qed.

End StrFacts.

Module TissueFacts.
Import Cohort StrFacts.

Lemma index_Some {A : Type} (l : list A) i x : l !! i = Some x → index l i = Ok x.
Proof. unfold index. by intros ->. Qed.


Lemma scan_first before c after second :
  unmarked before → Str.contains "tissue:" c = true →
  Str.split ":" c !! 1 = Some second →
  scan_characteristics (before ++ c :: after)
  = Ok (Some (Str.lower (Str.strip second))).
Proof.
  intros Hbefore Hc Hsecond. induction Hbefore as [|c' before Hc' _ IH].
  - cbn [app scan_characteristics]. rewrite Hc.
    by rewrite (index_Some _ _ _ Hsecond).
  - cbn [app scan_characteristics]. by rewrite Hc'.
Qed.



End TissueFacts.

(** ** Cohort selection *)

Module CohortFacts.
Import Cohort TissueFacts.




(** The comprehension of [get_samples_in_studies], from the list [acc]. *)
Lemma comprehension_ok (studies : gset string) (s2s : gmap string string)
    (samples acc : list string) :
  (∀ s, s ∈ samples → is_Some (s2s !! s)) →
  for_each (λ subset_samples sample,
              study ← getitem s2s sample;
              if decide (study ∈ studies)
              then Ok (subset_samples ++ [sample])
              else Ok subset_samples) samples acc
  = Ok (acc ++ filter (in_studies studies s2s) samples).
Proof.
  revert acc. induction samples as [|x samples IH]; intros acc Hall.
  { by rewrite filter_nil, app_nil_r. }
  rewrite for_each_cons. destruct (Hall x) as [study Hx]; [set_solver|].
  rewrite (getitem_Some _ _ _ Hx), bind_Ok.
  case_decide as Hin; rewrite bind_Ok, IH by set_solver.
  - rewrite filter_cons_True by (by exists study).
    by rewrite <- app_assoc.
  - rewrite filter_cons_False; [done|].
    intros (study' & Hx' & ?). congruence.
Qed.

Lemma comprehension_fail (studies : gset string) (s2s : gmap string string)
    (samples acc : list string) :
  (∃ s, s ∈ samples ∧ s2s !! s = None) →
  for_each (λ subset_samples sample,
              study ← getitem s2s sample;
              if decide (study ∈ studies)
              then Ok (subset_samples ++ [sample])
              else Ok subset_samples) samples acc
  = Raise KeyError.
Proof.
  revert acc. induction samples as [|x samples IH]; intros acc (s & Hs & Hnone).
  { by apply elem_of_nil in Hs. }
  rewrite for_each_cons.
  destruct (s2s !! x) as [study|] eqn:Hx;
    [rewrite (getitem_Some _ _ _ Hx)|by rewrite (getitem_None _ _ Hx)].
  assert (∃ s, s ∈ samples ∧ s2s !! s = None) as Hrest.
  { apply elem_of_cons in Hs as [->|Hs]; [congruence|eauto]. }
  rewrite bind_Ok. case_decide; rewrite bind_Ok; by apply IH.
Qed.

End CohortFacts.

Module CohortSpec.
Import Cohort CohortFacts.

(** C9. When every sample of the list has a study, the result of
    [get_samples_in_studies] is the list filtered, in order, down to the
    samples whose study is in [studies]; when some sample of the list has
    no study, the call raises [KeyError]. *)
Theorem get_samples_in_studies_spec samples studies
    (sample_to_study : gmap string string) :
  ((∀ s, s ∈ samples → is_Some (sample_to_study !! s)) →
   get_samples_in_studies samples studies sample_to_study
   = Ok (filter (in_studies studies sample_to_study) samples)) ∧
  ((∃ s, s ∈ samples ∧ sample_to_study !! s = None) →
   get_samples_in_studies samples studies sample_to_study = Raise KeyError).
Proof.
  unfold get_samples_in_studies. split.
  - intros Hall. by rewrite comprehension_ok.
  - apply comprehension_fail.
Qed.

Lemma get_samples_in_studies_spec_witness :
  get_samples_in_studies ["s1"; "s2"; "s3"; "s1"] {[ "A"; "C" ]}
    {[ "s1" := "A"; "s2" := "B"; "s3" := "C" ]}
  = Ok (filter (in_studies {[ "A"; "C" ]}
                  {[ "s1" := "A"; "s2" := "B"; "s3" := "C" ]})
               ["s1"; "s2"; "s3"; "s1"]) ∧
  get_samples_in_studies ["s1"; "s4"; "s3"] {[ "A"; "C" ]}
    {[ "s1" := "A"; "s2" := "B"; "s3" := "C" ]}
  = Raise KeyError.
Proof.
  split.
  - apply (get_samples_in_studies_spec ["s1"; "s2"; "s3"; "s1"] {[ "A"; "C" ]}
             {[ "s1" := "A"; "s2" := "B"; "s3" := "C" ]}).
    intros s Hs.
    repeat (apply elem_of_cons in Hs as [->|Hs]; [by eexists|]).
    by apply elem_of_nil in Hs.
  - apply (get_samples_in_studies_spec ["s1"; "s4"; "s3"] {[ "A"; "C" ]}
             {[ "s1" := "A"; "s2" := "B"; "s3" := "C" ]}).
    exists "s4". split; [|done].
    apply elem_of_cons. right. apply elem_of_cons. by left.
Defined.

(** The filter keeps the order and the repetitions of the list. *)
Example get_samples_in_studies_order :
  get_samples_in_studies ["s1"; "s2"; "s3"; "s1"] {[ "A"; "C" ]}
    {[ "s1" := "A"; "s2" := "B"; "s3" := "C" ]}
  = Ok ["s1"; "s3"; "s1"].
Proof. by vm_compute. Qed.

End CohortSpec.

(** ** Tissue extraction and cohort selection over Unicode text *)

Module UnicodeFacts.
Import Unicode.

Lemma isspace_spec c : isspace c = true ↔ c ∈ WHITESPACE.
Proof. unfold isspace. apply bool_decide_eq_true. Qed.

Lemma startswith_spec (t prefix : text) :
  startswith t prefix = true ↔ ∃ rest, t = prefix ++ rest.
Proof.
  revert t. induction prefix as [|a prefix IH]; intros t.
  { split; [by exists t|by destruct t]. }
  destruct t as [|b t]; cbn.
  { split; [done|]. by intros [? ?]. }
  case_decide as Hab.
  - subst. rewrite IH. split; intros [rest ?]; exists rest; by simplify_eq.
  - split; [done|]. intros [rest ?]. by simplify_eq.
Qed.

Lemma contains_spec (needle t : text) : contains needle t = true ↔ occurs needle t.
Proof.
  unfold occurs. induction t as [|c t IH]; cbn [contains].
  - rewrite orb_false_r, startswith_spec. split.
    + intros [rest ?]. by exists [], rest.
    + intros ([|??] & after & Heq); [by exists after|discriminate].
  - rewrite orb_true_iff, startswith_spec, IH. split.
    + intros [[rest ->]|(before & after & ->)].
      * by exists [], rest.
      * by exists (c :: before), after.
    + intros ([|c' before] & after & Heq).
      * left. by exists after.
      * right. exists before, after. cbn in Heq. by simplify_eq.
Qed.

Lemma split_nonempty_text (sep : N) (t : text) : ∃ head tail, split sep t = head :: tail.
Proof.
  induction t as [|c t (head & tail & IH)]; cbn; [by eexists _, _|].
  case_decide; [by eexists _, _|]. rewrite IH. by eexists _, _.
Qed.

Lemma split_without_text (sep : N) (t : text) : sep ∉ t → split sep t = [t].
Proof.
  induction t as [|c t IH]; [done|]. intros Hsep. cbn.
  rewrite decide_False by set_solver. rewrite IH; [done|set_solver].
Qed.

Lemma split_at_first_text (sep : N) (head rest : text) :
  sep ∉ head → split sep (head ++ sep :: rest) = head :: split sep rest.
Proof.
  induction head as [|c head IH]; intros Hsep; cbn.
  - by rewrite decide_True.
  - rewrite decide_False by set_solver. rewrite IH; [done|set_solver].
Qed.

(** The second field: what lies between the first separator and the
    next one, or the end. *)
Lemma split_second_text (sep : N) (head second tail : text) :
  sep ∉ head → sep ∉ second → tail = [] ∨ (∃ tail', tail = sep :: tail') →
  split sep (head ++ sep :: (second ++ tail)) !! 1 = Some second.
Proof.
  intros Hhead Hsecond Htail. rewrite split_at_first_text by done. cbn.
  destruct Htail as [->|[tail' ->]].
  - by rewrite app_nil_r, split_without_text.
  - by rewrite split_at_first_text.
Qed.

Lemma first_separator (sep : N) (t : text) :
  sep ∈ t → ∃ head rest, t = head ++ sep :: rest ∧ sep ∉ head.
Proof.
  induction t as [|c t IH]; [by intros ?%elem_of_nil|]. intros Hin.
  destruct (decide (c = sep)) as [->|Hne].
  - exists [], t. split; [done|]. apply not_elem_of_nil.
  - apply elem_of_cons in Hin as [?|Hin]; [congruence|].
    destruct (IH Hin) as (head & rest & -> & Hhead).
    exists (c :: head), rest. split; [done|]. set_solver.
Qed.

Lemma up_to_separator (sep : N) (t : text) :
  ∃ second tail, t = second ++ tail ∧ (sep ∉ second) ∧
                 (tail = [] ∨ ∃ tail', tail = sep :: tail').
Proof.
  induction t as [|c t (second & tail & -> & Hsecond & Htail)].
  { exists [], []. split_and!; [done|apply not_elem_of_nil|by left]. }
  destruct (decide (c = sep)) as [->|Hne].
  - exists [], (sep :: (second ++ tail)).
    split_and!; [done|apply not_elem_of_nil|right; by eexists].
  - exists (c :: second), tail. split_and!; [done|set_solver|done].
Qed.

Lemma lstrip_spec (t : text) :
  ∃ pre, t = pre ++ lstrip t ∧ Forall (λ c, c ∈ WHITESPACE) pre ∧
         ∀ x u, lstrip t = x :: u → x ∉ WHITESPACE.
Proof.
  induction t as [|c t (pre & Ht & Hpre & Hhead)].
  { exists []. by split_and!. }
  cbn. destruct (isspace c) eqn:Hc.
  - exists (c :: pre). split_and!; [by rewrite Ht at 1| |done].
    constructor; [by apply isspace_spec|done].
  - exists []. split_and!; [done..|]. intros x u [= <- <-].
    rewrite <- isspace_spec. by rewrite Hc.
Qed.

Lemma rstrip_spec (t : text) :
  ∃ post, t = rstrip t ++ post ∧ Forall (λ c, c ∈ WHITESPACE) post ∧
          ∀ u x, rstrip t = u ++ [x] → x ∉ WHITESPACE.
Proof.
  unfold rstrip. destruct (lstrip_spec (reverse t)) as (pre & Ht & Hpre & Hhead).
  exists (reverse pre). split_and!.
  - rewrite <- reverse_app, <- Ht. by rewrite reverse_involutive.
  - by apply Forall_reverse.
  - intros u x Heq. apply (Hhead x (reverse u)).
    apply (inj reverse). by rewrite reverse_cons, !reverse_involutive.
Qed.

(** [t.strip()] is [t] without a leading and a trailing run of
    whitespace, and it neither starts nor ends with whitespace. *)
Lemma strip_spec (t : text) :
  ∃ pre post,
    t = pre ++ strip t ++ post ∧
    Forall (λ c, c ∈ WHITESPACE) pre ∧ Forall (λ c, c ∈ WHITESPACE) post ∧
    (∀ x u, strip t = x :: u → x ∉ WHITESPACE) ∧
    (∀ u x, strip t = u ++ [x] → x ∉ WHITESPACE).
Proof.
  unfold strip. destruct (lstrip_spec t) as (pre & Ht & Hpre & Hhead).
  destruct (rstrip_spec (lstrip t)) as (post & Hu & Hpost & Hlast).
  exists pre, post. split_and!; [by rewrite <- Hu|done..| |done].
  intros x u Heq. apply (Hhead x (u ++ post)). by rewrite Hu at 1; rewrite Heq.
Qed.

End UnicodeFacts.

Module ResolverFacts.
Import Unicode UnicodeFacts Resolver.

Lemma index_lookup {A : Type} (l : list A) i x : l !! i = Some x → index l i = Ok x.
Proof. unfold index. by intros ->. Qed.

(** The marker ends with the separator. *)
Lemma marker_colon (c : text) : occurs MARKER c → COLON ∈ c.
Proof.
  intros (before & after & ->). rewrite !elem_of_app. right. left.
  vm_compute. do 6 right. by left.
Qed.

(** The fields of a characteristic that contains the marker. *)
Lemma marked_fields (c : text) :
  occurs MARKER c →
  ∃ head second tail,
    c = head ++ COLON :: (second ++ tail) ∧ (COLON ∉ head) ∧ (COLON ∉ second) ∧
    (tail = [] ∨ ∃ tail', tail = COLON :: tail') ∧
    split COLON c !! 1 = Some second.
Proof.
  intros (head & rest & -> & Hhead)%marker_colon%first_separator.
  destruct (up_to_separator COLON rest) as (second & tail & -> & Hsecond & Htail).
  exists head, second, tail. split_and!; [done..|]. by apply split_second_text.
Qed.

Section resolver.
Context (lower : text → text).

Lemma scan_unmarked_text ch1 :
  unmarked ch1 → scan_characteristics lower ch1 = Ok None.
Proof.
  induction 1 as [|c ch1 Hc _ IH]; [done|]. cbn [scan_characteristics].
  destruct (contains MARKER c) eqn:E; [|done].
  by apply contains_spec in E.
Qed.

Lemma scan_first_text before c after second :
  unmarked before → occurs MARKER c → split COLON c !! 1 = Some second →
  scan_characteristics lower (before ++ c :: after)
  = Ok (Some (lower (strip second))).
Proof.
  intros Hbefore Hc Hsecond. induction Hbefore as [|c' before Hc' _ IH].
  - cbn [app scan_characteristics]. apply contains_spec in Hc as ->.
    by rewrite (index_lookup _ _ _ Hsecond).
  - cbn [app scan_characteristics].
    destruct (contains MARKER c') eqn:E; [|done].
    by apply contains_spec in E.
Qed.

(** The scan never raises. *)
Lemma scan_returns_text ch1 : returns (scan_characteristics lower ch1).
Proof.
  induction ch1 as [|c ch1 IH]; [by eexists|]. cbn [scan_characteristics].
  destruct (contains MARKER c) eqn:Hc; [|done].
  apply contains_spec in Hc.
  destruct (marked_fields c Hc) as (? & second & ? & _ & _ & _ & _ & Hsecond).
  rewrite (index_lookup _ _ _ Hsecond). by eexists.
Qed.

Lemma get_tissue_returns_text sm sample : returns (get_tissue lower sm sample).
Proof.
  unfold get_tissue, get_tissue_try, getitem.
  destruct (sm !! sample) as [[[[|[[ch1|]] rest]|]]|]; cbn;
    try by eexists.
  destruct (scan_returns_text ch1) as [t ->]. by eexists.
Qed.

Lemma in_blood_keys_true_text tissue :
  in_blood_keys tissue = true ↔ ∃ t, tissue = Some t ∧ t ∈ BLOOD_KEYS.
Proof.
  destruct tissue as [t|]; cbn [in_blood_keys].
  - rewrite bool_decide_eq_true. split; [by exists t|]. by intros (? & [= <-] & ?).
  - split; [done|]. by intros (? & ? & _).
Qed.

(** The loop over the metadata's samples, from the set [acc]. *)
Lemma collect_unlabeled_text sm (labeled : gset string) keys (acc : gset string) :
  ∃ unlabeled : gset string,
    for_each (λ (unlabeled_samples : gset string) sample,
                tissue ← get_tissue lower sm sample;
                if in_blood_keys tissue && bool_decide (sample ∉ labeled)
                then Ok (unlabeled_samples ∪ {[sample]})
                else Ok unlabeled_samples) keys acc = Ok unlabeled ∧
    ∀ s, s ∈ unlabeled ↔
         s ∈ acc ∨
         (s ∈ keys ∧
          (∃ t, get_tissue lower sm s = Ok (Some t) ∧ t ∈ BLOOD_KEYS) ∧
          s ∉ labeled).
Proof.
  revert acc. induction keys as [|key keys IH]; intros acc.
  { exists acc. split; [done|]. intros s. split; [by left|].
    by intros [?|[?%elem_of_nil _]]. }
  rewrite for_each_cons.
  destruct (get_tissue_returns_text sm key) as [tissue Htissue].
  rewrite Htissue, bind_Ok.
  destruct (in_blood_keys tissue && bool_decide (key ∉ labeled)) eqn:Hkeep;
    rewrite bind_Ok.
  - apply andb_true_iff in Hkeep as [Hblood Hnew].
    apply in_blood_keys_true_text in Hblood as (t & -> & Ht).
    apply bool_decide_eq_true in Hnew.
    destruct (IH (acc ∪ {[key]})) as (unlabeled & -> & Hunl).
    exists unlabeled. split; [done|]. intros s. rewrite Hunl.
    rewrite elem_of_union, elem_of_singleton, elem_of_cons. split.
    + intros [[Hs| ->]|(Hs & Ht' & Hs')].
      * by left.
      * right. split_and!; [by left|by exists t|done].
      * right. split_and!; [by right|done..].
    + intros [Hs|([->|Hs] & Ht' & Hs')].
      * left. by left.
      * left. by right.
      * right. by split_and!.
  - destruct (IH acc) as (unlabeled & -> & Hunl).
    exists unlabeled. split; [done|]. intros s. rewrite Hunl, elem_of_cons.
    split.
    + intros [Hs|(Hs & Ht' & Hs')]; [by left|].
      right. split_and!; [by right|done..].
    + intros [Hs|([->|Hs] & (t & Ht & Hin) & Hnew)]; [by left| |].
      * rewrite Htissue in Ht. simplify_eq.
        rewrite andb_false_iff, bool_decide_eq_false in Hkeep.
        destruct Hkeep as [Hblood|?]; [|done].
        apply not_true_iff_false in Hblood. destruct Hblood.
        apply in_blood_keys_true_text. by exists t.
      * right. split_and!; [done|by exists t|done].
Qed.
End resolver.

Lemma elem_of_keys_text {V : Type} (m : gmap string V) s :
  s ∈ (map_to_list m).*1 ↔ s ∈ dom m.
Proof.
  rewrite elem_of_dom, list_elem_of_fmap. split.
  - intros ([k v] & -> & Hkv%elem_of_map_to_list). by exists v.
  - intros [v Hv]. exists (s, v). by rewrite elem_of_map_to_list.
Qed.

End ResolverFacts.

Module ResolverSpec.
Import Unicode UnicodeFacts Resolver ResolverFacts.

(** C7. For a sample with a record in the metadata, [get_tissue]
    returns [None] when the record has no ['refinebio_annotations'], when
    that list is empty, when its first entry has no
    ['characteristics_ch1'], and when no characteristic contains
    ['tissue:'].  At the first characteristic [c] that contains
    ['tissue:'] it returns the second [:]-separated field of [c],
    whitespace-trimmed and lower-cased: [c] is [head : second tail] where
    neither [head] nor [second] holds a colon and [tail] is empty or
    starts with a colon; [second] is [pre mid post] where [pre] and
    [post] are whitespace and [mid] neither starts nor ends with
    whitespace; the result is [mid] lower-cased, which for an ASCII [mid]
    is [mid] with [A]-[Z] replaced by [a]-[z]. *)
Theorem get_tissue_spec (lower : text → text)
    (sm : gmap string sample_record) sample record :
  lowers_ascii lower →
  sm !! sample = Some record →
  (refinebio_annotations record = None →
   get_tissue lower sm sample = Ok None) ∧
  (refinebio_annotations record = Some [] →
   get_tissue lower sm sample = Ok None) ∧
  (∀ first rest, refinebio_annotations record = Some (first :: rest) →
     (characteristics_ch1 first = None →
      get_tissue lower sm sample = Ok None) ∧
     (∀ ch1, characteristics_ch1 first = Some ch1 →
        (unmarked ch1 → get_tissue lower sm sample = Ok None) ∧
        (∀ before c after,
           ch1 = before ++ c :: after → unmarked before → occurs MARKER c →
           ∃ head second tail pre mid post,
             c = head ++ COLON :: (second ++ tail) ∧
             (COLON ∉ head) ∧ (COLON ∉ second) ∧
             (tail = [] ∨ ∃ tail', tail = COLON :: tail') ∧
             second = pre ++ mid ++ post ∧
             Forall (λ x, x ∈ WHITESPACE) pre ∧
             Forall (λ x, x ∈ WHITESPACE) post ∧
             (∀ x u, mid = x :: u → x ∉ WHITESPACE) ∧
             (∀ u x, mid = u ++ [x] → x ∉ WHITESPACE) ∧
             get_tissue lower sm sample = Ok (Some (lower mid)) ∧
             (Forall (λ x, (x < 128)%N) mid →
              lower mid
              = (λ x, if ((65 <=? x) && (x <=? 90))%N then (x + 32)%N else x)
                  <$> mid)))).
Proof.
  intros Hlower Hrec. unfold get_tissue, get_tissue_try, getitem.
  rewrite Hrec. cbn. split_and!.
  - by intros ->.
  - by intros ->.
  - intros first rest ->. cbn. split_and!.
    + by intros ->.
    + intros ch1 ->. cbn. split.
      * intros Hch1. by rewrite scan_unmarked_text.
      * intros before c after -> Hbefore Hc.
        destruct (marked_fields c Hc)
          as (head & second & tail & Hfields & Hhead & Hsecond & Htail & Hsplit).
        destruct (strip_spec second)
          as (pre & post & Hstrip & Hpre & Hpost & Hfirst & Hlast).
        exists head, second, tail, pre, (strip second), post.
        split_and!; try done.
        -- by rewrite (scan_first_text lower _ _ _ second).
        -- apply Hlower.
Qed.

(** The tissue of a characteristic that ends in a no-break space. *)
Lemma get_tissue_spec_witness :
  let lower : text → text := fmap ascii_lower in
  let c := encode "tissue: Whole Blood" ++ [160%N] ++ encode ": x" in
  let sm : gmap string sample_record :=
    {[ "GSM1" := SampleRecord (Some [Annotation (Some [encode "age: 60"; c])]) ]} in
  (∃ head second tail pre mid post,
     c = head ++ COLON :: (second ++ tail) ∧
     (COLON ∉ head) ∧ (COLON ∉ second) ∧
     (tail = [] ∨ ∃ tail', tail = COLON :: tail') ∧
     second = pre ++ mid ++ post ∧
     Forall (λ x, x ∈ WHITESPACE) pre ∧
     Forall (λ x, x ∈ WHITESPACE) post ∧
     (∀ x u, mid = x :: u → x ∉ WHITESPACE) ∧
     (∀ u x, mid = u ++ [x] → x ∉ WHITESPACE) ∧
     get_tissue lower sm "GSM1" = Ok (Some (lower mid)) ∧
     (Forall (λ x, (x < 128)%N) mid →
      lower mid
      = (λ x, if ((65 <=? x) && (x <=? 90))%N then (x + 32)%N else x)
          <$> mid)) ∧
  get_tissue lower sm "GSM1" = Ok (Some (encode "whole blood")).
Proof.
  intros lower c sm. split; [|by vm_compute].
  assert (lowers_ascii lower) as Hlower by done.
  assert (sm !! "GSM1"
          = Some (SampleRecord (Some [Annotation (Some [encode "age: 60"; c])])))
    as Hrec by apply lookup_singleton_eq.
  destruct (get_tissue_spec lower sm "GSM1" _ Hlower Hrec) as (_ & _ & Hfirst).
  destruct (Hfirst _ _ eq_refl) as [_ Hch1].
  destruct (Hch1 _ eq_refl) as [_ Hscan].
  apply (Hscan [encode "age: 60"] c []).
  - reflexivity.
  - constructor; [|constructor]. intros Hocc%contains_spec. by vm_compute in Hocc.
  - apply contains_spec. by vm_compute.
Defined.

(** C8 (as stated, refuted). On a metadata structure without the key
    ['samples'] the function returns no set: it raises [KeyError]. *)
Lemma get_blood_sample_ids_missing_samples :
  get_blood_sample_ids (fmap ascii_lower) (Metadata None)
    {[ "GSM1" := "sepsis" ]}
  = Raise KeyError.
Proof. reflexivity. Qed.

(** C8 (amended). On a metadata structure that has the key ['samples'],
    [get_blood_sample_ids] returns [L ∪ U], where [L] is the set of keys
    of [sample_to_label] and [U] is the set of the samples of
    [metadata['samples']] that are not in [L] and whose tissue, as
    [get_tissue] extracts it, is one of [BLOOD_KEYS]. *)
Theorem get_blood_sample_ids_spec (lower : text → text) metadata
    (sample_to_label : gmap string string) sample_metadata :
  samples metadata = Some sample_metadata →
  ∃ U : gset string,
    (∀ s, s ∈ U ↔
          s ∈ dom sample_metadata ∧
          (∃ tissue, get_tissue lower sample_metadata s = Ok (Some tissue) ∧
                     tissue ∈ BLOOD_KEYS) ∧
          s ∉ dom sample_to_label) ∧
    get_blood_sample_ids lower metadata sample_to_label
    = Ok (dom sample_to_label ∪ U).
Proof.
  intros Hsamples. unfold get_blood_sample_ids. rewrite Hsamples. cbn [field].
  rewrite bind_Ok.
  destruct (collect_unlabeled_text lower sample_metadata (dom sample_to_label)
              (map_to_list sample_metadata).*1 ∅) as (U & -> & HU).
  exists U. split; [|done].
  intros s. rewrite HU, elem_of_keys_text.
  split; [|by right]. intros [Hs|Hs]; [|exact Hs].
  by apply not_elem_of_empty in Hs.
Qed.

Lemma get_blood_sample_ids_spec_witness :
  let lower : text → text := fmap ascii_lower in
  let sm : gmap string sample_record :=
    {[ "GSM1" := SampleRecord
                   (Some [Annotation
                            (Some [encode "tissue: Whole Blood" ++ [160%N]])]) ]} in
  let labels : gmap string string := {[ "GSM2" := "sepsis" ]} in
  (∃ U : gset string,
     (∀ s, s ∈ U ↔
           s ∈ dom sm ∧
           (∃ tissue, get_tissue lower sm s = Ok (Some tissue) ∧
                      tissue ∈ BLOOD_KEYS) ∧
           s ∉ dom labels) ∧
     get_blood_sample_ids lower (Metadata (Some sm)) labels
     = Ok (dom labels ∪ U)) ∧
  get_blood_sample_ids lower (Metadata (Some sm)) labels
  = Ok {[ "GSM1"; "GSM2" ]}.
Proof.
  intros lower sm labels. split; [|by vm_compute].
  by apply (get_blood_sample_ids_spec lower (Metadata (Some sm)) labels sm).
Defined.

End ResolverSpec.

Module BalanceFacts.
Import Balance.
Local Open Scope Q_scope.


Lemma true_div_zero (a b : Q) : b == 0 → true_div a b = Raise ZeroDivisionError.
Proof.
  intros Hb. unfold true_div. apply Qeq_bool_iff in Hb. by rewrite Hb.
Qed.



(** A class ratio [p / d] with [d == n + p], the pool being non-empty. *)
Section ratio.
Variables p n d : Q.
Hypothesis Hp : 0 <= p.
Hypothesis Hn : 0 <= n.
Hypothesis Hd : d == n + p.
Hypothesis Hpos : 0 < d.







End ratio.











End BalanceFacts.

Module BalanceSpec.
Import Balance BalanceFacts.
Local Open Scope Q_scope.

(** C3 (the code at the failing input). With equal class ratios neither
    branch binds [subset_fraction]: the call raises instead of returning
    1. *)
Theorem equal_ratios_raise :
  r_train 1 1 == r_val 1 1 ∧
  determine_subset_fraction 1 1 1 1 = Raise UnboundLocalError.
Proof. split; reflexivity. Qed.



End BalanceSpec.

(** ** Class-balance corrector in binary64 *)

Module Binary64Facts.
Import Binary64.
Local Open Scope Q_scope.

Lemma pow2_pos (e : Z) : 0 < 2 ^ e.
Proof. by apply Qpower_0_lt. Qed.

Lemma pow2_plus (a b : Z) : 2 ^ (a + b) == 2 ^ a * 2 ^ b.
Proof. by apply Qpower_plus. Qed.

Lemma pow2_succ (a : Z) : 2 ^ (a + 1) == 2 * 2 ^ a.
Proof. rewrite pow2_plus. change (2 ^ 1) with 2. ring. Qed.

Lemma pow2_le (a b : Z) : (a ≤ b)%Z → 2 ^ a <= 2 ^ b.
Proof. intros Hab. by apply Qpower_le_compat_l. Qed.

Lemma pow2_lt (a b : Z) : (a < b)%Z → 2 ^ a < 2 ^ b.
Proof. intros Hab. by apply Qpower_lt_compat_l. Qed.

Lemma pow2_lt_inv (a b : Z) : 2 ^ a < 2 ^ b → (a < b)%Z.
Proof. intros Hab. by eapply Qpower_lt_compat_l_inv. Qed.

Lemma pow2_Z (n : Z) : (0 ≤ n)%Z → inject_Z (2 ^ n) == 2 ^ n.
Proof. intros Hn. by rewrite Zpower_Qpower. Qed.

Lemma pow2_div (a b : Z) : 2 ^ a / 2 ^ b == 2 ^ (a - b).
Proof.
  pose proof (pow2_pos b).
  replace a with (a - b + b)%Z at 1 by lia. rewrite pow2_plus. field. lra.
Qed.

(** The integer bounds of a positive integer's binary logarithm, in [Q]. *)
Lemma log2_bounds (n : Z) :
  (0 < n)%Z → 2 ^ Z.log2 n <= inject_Z n < 2 ^ (Z.log2 n + 1).
Proof.
  intros Hn. destruct (Z.log2_spec n Hn) as [Hlo Hhi].
  pose proof (Z.log2_nonneg n).
  rewrite <- !pow2_Z by lia. rewrite <- Zle_Qle, <- Zlt_Qlt.
  split; [done|]. by rewrite <- Z.add_1_r in Hhi.
Qed.

Lemma ilog2_spec (x : Q) : 0 < x → 2 ^ ilog2 x <= x < 2 ^ (ilog2 x + 1).
Proof.
  intros Hx. unfold ilog2. destruct x as [n d]. cbn [Qnum Qden].
  assert (0 < n)%Z as Hn by (unfold Qlt in Hx; cbn in Hx; lia).
  pose proof (log2_bounds n Hn) as [Hn1 Hn2].
  pose proof (log2_bounds (Zpos d) eq_refl) as [Hd1 Hd2].
  set (a := Z.log2 n) in *. set (b := Z.log2 (Zpos d)) in *.
  assert (n # d == inject_Z n / inject_Z (Zpos d)) as Hx' by apply Qmake_Qdiv.
  set (N := inject_Z n) in *. set (D := inject_Z (Zpos d)) in *.
  assert (0 < D) by (pose proof (pow2_pos b); lra).
  assert (2 ^ (a - b - 1) < n # d) as Hlow.
  { rewrite Hx'. apply Qlt_shift_div_l; [done|].
    apply Qlt_le_trans with (2 ^ (a - b - 1) * 2 ^ (b + 1)).
    - apply Qmult_lt_l; [apply pow2_pos|done].
    - rewrite <- pow2_plus. by replace (a - b - 1 + (b + 1))%Z with a by lia. }
  assert (n # d < 2 ^ (a - b + 1)) as Hhigh.
  { rewrite Hx'. apply Qlt_shift_div_r; [done|].
    apply Qlt_le_trans with (2 ^ (a - b + 1) * 2 ^ b).
    - rewrite <- pow2_plus. by replace (a - b + 1 + b)%Z with (a + 1)%Z by lia.
    - apply Qmult_le_l; [apply pow2_pos|done]. }
  destruct (Qle_bool (2 ^ (a - b)) (n # d)) eqn:Hcmp.
  - apply Qle_bool_iff in Hcmp. done.
  - apply not_true_iff_false in Hcmp. rewrite Qle_bool_iff in Hcmp.
    apply Qnot_le_lt in Hcmp.
    replace (a - b - 1 + 1)%Z with (a - b)%Z by lia. split; [lra|done].
Qed.

Lemma ilog2_unique (x : Q) (j : Z) :
  0 < x → 2 ^ j <= x < 2 ^ (j + 1) → ilog2 x = j.
Proof.
  intros Hx [Hlo Hhi]. destruct (ilog2_spec x Hx) as [Hlo' Hhi'].
  assert (2 ^ j < 2 ^ (ilog2 x + 1)) as H1%pow2_lt_inv by lra.
  assert (2 ^ ilog2 x < 2 ^ (j + 1)) as H2%pow2_lt_inv by lra.
  lia.
Qed.

Lemma ilog2_le (x y : Q) : 0 < x → x <= y → (ilog2 x ≤ ilog2 y)%Z.
Proof.
  intros Hx Hxy. assert (0 < y) as Hy by lra.
  destruct (ilog2_spec x Hx) as [Hlo _]. destruct (ilog2_spec y Hy) as [_ Hhi].
  assert (2 ^ ilog2 x < 2 ^ (ilog2 y + 1)) as H%pow2_lt_inv by lra. lia.
Qed.

Lemma ilog2_comp (x y : Q) : 0 < x → x == y → ilog2 x = ilog2 y.
Proof.
  intros Hx Hxy. symmetry. apply ilog2_unique; [lra|].
  rewrite <- Hxy. by apply ilog2_spec.
Qed.

(** ** Rounding to the nearest integer *)

Lemma rne_floor (q : Q) : (Qfloor q ≤ rne q ≤ Qfloor q + 1)%Z.
Proof.
  unfold rne. destruct (Qcompare _ _); [destruct (Z.even _)| |]; lia.
Qed.

Lemma rne_Z (z : Z) : rne (inject_Z z) = z.
Proof.
  unfold rne. rewrite Qfloor_Z.
  assert (inject_Z z - inject_Z z < 1 # 2) as ->%Qlt_alt by lra. done.
Qed.

Lemma rne_comp (q q' : Q) : q == q' → rne q = rne q'.
Proof.
  intros Hq. unfold rne. rewrite (Qfloor_comp _ _ Hq).
  assert (Qcompare (q - inject_Z (Qfloor q')) (1 # 2)
          = Qcompare (q' - inject_Z (Qfloor q')) (1 # 2)) as ->; [|done].
  apply Qcompare_comp; [|done]. by rewrite Hq.
Qed.

Lemma rne_mono (q q' : Q) : q <= q' → (rne q ≤ rne q')%Z.
Proof.
  intros Hq. pose proof (Qfloor_resp_le _ _ Hq) as Hf.
  destruct (decide (Qfloor q = Qfloor q')) as [Heq|Hne].
  - unfold rne. rewrite <- Heq.
    destruct (Qcompare_spec (q - inject_Z (Qfloor q)) (1 # 2));
      destruct (Qcompare_spec (q' - inject_Z (Qfloor q)) (1 # 2));
      try destruct (Z.even _); try lia; lra.
  - pose proof (rne_floor q). pose proof (rne_floor q'). lia.
Qed.

Lemma rne_lower (q : Q) (z : Z) : inject_Z z <= q → (z ≤ rne q)%Z.
Proof. intros H%rne_mono. by rewrite rne_Z in H. Qed.

Lemma rne_upper (q : Q) (z : Z) : q <= inject_Z z → (rne q ≤ z)%Z.
Proof. intros H%rne_mono. by rewrite rne_Z in H. Qed.

(** ** Rounding a positive number to 53 bits *)

Lemma scaled_bounds (x : Q) :
  0 < x → 2 ^ 52 <= x / 2 ^ (ilog2 x - 52) < 2 ^ 53.
Proof.
  intros Hx. destruct (ilog2_spec x Hx) as [Hlo Hhi].
  pose proof (pow2_pos (ilog2 x - 52)) as He.
  assert (2 ^ ilog2 x == 2 ^ 52 * 2 ^ (ilog2 x - 52)) as Hlo'.
  { rewrite <- pow2_plus. by replace (52 + (ilog2 x - 52))%Z with (ilog2 x) by lia. }
  assert (2 ^ (ilog2 x + 1) == 2 ^ 53 * 2 ^ (ilog2 x - 52)) as Hhi'.
  { rewrite <- pow2_plus.
    by replace (53 + (ilog2 x - 52))%Z with (ilog2 x + 1)%Z by lia. }
  split.
  - apply Qle_shift_div_l; [done|]. by rewrite <- Hlo'.
  - apply Qlt_shift_div_r; [done|]. by rewrite <- Hhi'.
Qed.

Lemma round_pos_eq (x : Q) :
  round_pos x
  == inject_Z (rne (x / 2 ^ (ilog2 x - 52))) * 2 ^ (ilog2 x - 52).
Proof. unfold round_pos. apply Qred_correct. Qed.

(** The rounded value stays in the binade of [x], upper end included. *)
Lemma round_pos_binade (x : Q) :
  0 < x → 2 ^ ilog2 x <= round_pos x <= 2 ^ (ilog2 x + 1).
Proof.
  intros Hx. rewrite round_pos_eq.
  destruct (scaled_bounds x Hx) as [Hlo Hhi].
  pose proof (pow2_pos (ilog2 x - 52)) as He.
  set (m := x / 2 ^ (ilog2 x - 52)) in *.
  assert (2 ^ 52 ≤ rne m ≤ 2 ^ 53)%Z as [H1 H2].
  { split; [apply rne_lower|apply rne_upper]; rewrite pow2_Z by lia; lra. }
  rewrite Zle_Qle in H1, H2. rewrite !pow2_Z in H1, H2 by lia.
  replace (ilog2 x) with (52 + (ilog2 x - 52))%Z at 1 by lia.
  replace (ilog2 x + 1)%Z with (53 + (ilog2 x - 52))%Z by lia.
  rewrite !pow2_plus. split; apply Qmult_le_compat_r; lra.
Qed.

Lemma round_pos_comp (x y : Q) : 0 < x → x == y → round_pos x == round_pos y.
Proof.
  intros Hx Hxy. rewrite !round_pos_eq.
  rewrite <- (ilog2_comp x y Hx Hxy).
  generalize (2 ^ (ilog2 x - 52)). intros p.
  assert (x / p == y / p) as Hm by (by rewrite Hxy).
  by rewrite (rne_comp _ _ Hm).
Qed.

Lemma round_pos_mono (x y : Q) : 0 < x → x <= y → round_pos x <= round_pos y.
Proof.
  intros Hx Hxy. assert (0 < y) as Hy by lra.
  pose proof (ilog2_le x y Hx Hxy) as Hlog.
  destruct (decide (ilog2 x = ilog2 y)) as [Heq|Hne].
  - rewrite !round_pos_eq, <- Heq.
    pose proof (pow2_pos (ilog2 x - 52)) as He.
    apply Qmult_le_compat_r; [|lra]. rewrite <- Zle_Qle. apply rne_mono.
    apply Qmult_le_compat_r; [done|]. apply Qlt_le_weak, Qinv_lt_0_compat, He.
  - destruct (round_pos_binade x Hx) as [_ Hhi].
    destruct (round_pos_binade y Hy) as [Hlo _].
    assert (2 ^ (ilog2 x + 1) <= 2 ^ ilog2 y) by (apply pow2_le; lia). lra.
Qed.

(** A number whose significand fits is left alone. *)
Lemma round_pos_exact (x : Q) (i j : Z) :
  0 < x → x == inject_Z i * 2 ^ j → (ilog2 x - 52 ≤ j)%Z → round_pos x == x.
Proof.
  intros Hx Hrepr Hj. rewrite round_pos_eq.
  set (e := (ilog2 x - 52)%Z) in *.
  pose proof (pow2_pos e) as He.
  assert (x / 2 ^ e == inject_Z (i * 2 ^ (j - e))) as Hm.
  { rewrite inject_Z_mult, pow2_Z, <- pow2_div, Hrepr by lia. field. lra. }
  rewrite (rne_comp _ _ Hm), rne_Z, <- Hm. field. lra.
Qed.

(** ** Rounding *)

Lemma round_zero (x : Q) : x == 0 → round x = 0.
Proof. intros Hx. unfold round. by apply Qeq_alt in Hx as ->. Qed.

Lemma round_positive (x : Q) : 0 < x → round x = round_pos x.
Proof. intros Hx. unfold round. by apply Qgt_alt in Hx as ->. Qed.

Lemma round_nonneg (x : Q) : 0 <= x → 0 <= round x.
Proof.
  intros Hx. destruct (Qeq_dec x 0) as [Hz|Hnz].
  - by rewrite round_zero.
  - assert (0 < x) as Hpos by lra. rewrite round_positive by done.
    destruct (round_pos_binade x Hpos) as [Hlo _].
    pose proof (pow2_pos (ilog2 x)). lra.
Qed.

Lemma round_pos_lt (x : Q) : 0 < x → 0 < round x.
Proof.
  intros Hpos. rewrite round_positive by done.
  destruct (round_pos_binade x Hpos) as [Hlo _].
  pose proof (pow2_pos (ilog2 x)). lra.
Qed.

Lemma round_mono (x y : Q) : 0 <= x → x <= y → round x <= round y.
Proof.
  intros Hx Hxy. destruct (Qeq_dec x 0) as [Hz|Hnz].
  - rewrite (round_zero x) by done. apply round_nonneg. lra.
  - assert (0 < x) as Hpos by lra.
    rewrite !round_positive by lra. by apply round_pos_mono.
Qed.

Lemma round_comp (x y : Q) : 0 <= x → x == y → round x == round y.
Proof.
  intros Hx Hxy. apply Qle_antisym; apply round_mono; lra.
Qed.

Lemma round_exact (x : Q) (i j : Z) :
  0 < x → x == inject_Z i * 2 ^ j → (ilog2 x - 52 ≤ j)%Z → round x == x.
Proof. intros Hx ??. rewrite round_positive by done. by eapply round_pos_exact. Qed.

(** Integers up to [2^53] are binary64 numbers. *)
Lemma round_int (z : Z) :
  (0 ≤ z ≤ 2 ^ 53)%Z → round (inject_Z z) == inject_Z z.
Proof.
  intros [Hlo Hhi]. destruct (decide (z = 0%Z)) as [->|Hnz]; [done|].
  destruct (decide (z = 2 ^ 53)%Z) as [->|Hne]; [by vm_compute|].
  assert (0 < inject_Z z) as Hpos.
  { change 0 with (inject_Z 0). rewrite <- Zlt_Qlt. lia. }
  apply (round_exact _ z 0); [done|change (2 ^ 0) with 1; ring|].
  destruct (ilog2_spec _ Hpos) as [Hl _].
  assert (inject_Z z < 2 ^ 53) as Hz.
  { rewrite <- pow2_Z by lia. rewrite <- Zlt_Qlt. lia. }
  assert (2 ^ ilog2 (inject_Z z) < 2 ^ 53) as H%pow2_lt_inv by lra. lia.
Qed.

End Binary64Facts.

Module Balance64Facts.
Import Binary64 Binary64Facts Balance64.
Local Open Scope Q_scope.

Lemma inject_Z_pos_b64 (z : Z) : (0 < z)%Z → 0 < inject_Z z.
Proof. intros H. change 0 with (inject_Z 0). by rewrite <- Zlt_Qlt. Qed.

Lemma inject_Z_nonneg_b64 (z : Z) : (0 ≤ z)%Z → 0 <= inject_Z z.
Proof. intros H. change 0 with (inject_Z 0). by rewrite <- Zle_Qle. Qed.

Lemma div_ok (a b : Q) : ¬ b == 0 → div a b = Ok (round (a / b)).
Proof.
  intros Hb. unfold div. destruct (Qeq_bool b 0) eqn:E; [|done].
  apply Qeq_bool_iff in E. contradiction.
Qed.

Lemma int_true_div_ok (a b : Z) :
  b ≠ 0%Z → int_true_div a b = Ok (round (inject_Z a / inject_Z b)).
Proof. intros Hb. unfold int_true_div. by apply Z.eqb_neq in Hb as ->. Qed.

Lemma gt_spec_b64 (a b : Q) : gt a b = true ↔ b < a.
Proof.
  unfold gt. rewrite negb_true_iff, <- not_true_iff_false, Qle_bool_iff.
  split; [apply Qnot_le_lt | apply Qlt_not_le].
Qed.

Lemma lt_spec_b64 (a b : Q) : lt a b = true ↔ a < b.
Proof. apply gt_spec_b64. Qed.

Lemma round_one : round 1 == 1.
Proof. by vm_compute. Qed.

(** A rounded class ratio lies between 0 and 1. *)
Lemma ratio_bounds (p n : Z) :
  (0 ≤ p)%Z → (0 ≤ n)%Z → (0 < p + n)%Z →
  0 <= round (inject_Z p / inject_Z (p + n)) <= 1.
Proof.
  intros Hp%inject_Z_nonneg_b64 Hn%inject_Z_nonneg_b64 Hd%inject_Z_pos_b64.
  rewrite inject_Z_plus in *.
  assert (0 <= inject_Z p / (inject_Z p + inject_Z n)) as H0
    by (apply Qle_shift_div_l; lra).
  split; [by apply round_nonneg|].
  rewrite <- round_one. apply round_mono; [done|].
  apply Qle_shift_div_r; lra.
Qed.

Lemma ratio_zero (p n : Z) :
  p = 0%Z → round (inject_Z p / inject_Z (p + n)) = 0.
Proof. intros ->. apply round_zero. apply Qmult_0_l. Qed.

Lemma ratio_one (p n : Z) :
  (0 < p)%Z → n = 0%Z → round (inject_Z p / inject_Z (p + n)) == 1.
Proof.
  intros Hp%inject_Z_pos_b64 ->. rewrite Z.add_0_r, <- round_one.
  apply round_comp; [apply Qle_shift_div_l; lra|]. field. lra.
Qed.

Lemma r_train_bounds_b64 tp tn vp vn :
  counts tp tn vp vn → 0 <= r_train tp tn <= 1.
Proof. intros (?&?&?&?&[? ?]&?). by apply ratio_bounds. Qed.

Lemma r_val_bounds_b64 tp tn vp vn : counts tp tn vp vn → 0 <= r_val vp vn <= 1.
Proof. intros (?&?&?&?&?&[? ?]). by apply ratio_bounds. Qed.

Lemma of_int_exact (z : Z) : (0 ≤ z ≤ 2 ^ 53)%Z → of_int z == inject_Z z.
Proof. apply round_int. Qed.

(** With both pools non-empty the two ratios are computed without error
    and the function reduces to its branch structure. *)
Lemma determine_subset_fraction_branches_b64 tp tn vp vn :
  counts tp tn vp vn →
  determine_subset_fraction tp tn vp vn =
    if gt (r_train tp tn) (r_val vp vn) then
      target ← div (mul (r_val vp vn) (of_int tn))
                   (sub (of_int 1) (r_val vp vn));
      div target (of_int tp)
    else if lt (r_train tp tn) (r_val vp vn) then
      target ← div (sub (of_int tp) (mul (r_val vp vn) (of_int tp)))
                   (r_val vp vn);
      div target (of_int tn)
    else Raise UnboundLocalError.
Proof.
  intros (?&?&?&?&[Ht ?]&[Hv ?]).
  unfold determine_subset_fraction, r_train, r_val.
  rewrite (Z.add_comm tn tp), !int_true_div_ok by lia.
  cbn. destruct (gt _ _); [|destruct (lt _ _); [|done]].
  - by destruct (div _ _) as [t|]; cbn; [destruct (div t _)|].
  - by destruct (div _ _) as [t|]; cbn; [destruct (div t _)|].
Qed.

(** Divisors met in the branch that removes positive samples. *)
Lemma divisors_gt_b64 tp tn vp vn :
  counts tp tn vp vn → r_val vp vn < r_train tp tn →
  0 < sub (of_int 1) (r_val vp vn) ∧ (0 < tp)%Z ∧ 0 < of_int tp.
Proof.
  intros Hc Hlt.
  pose proof (r_train_bounds_b64 _ _ _ _ Hc) as [_ Ht1].
  pose proof (r_val_bounds_b64 _ _ _ _ Hc) as [Hv0 _].
  destruct Hc as (?&?&?&?&?&?).
  assert (0 < tp)%Z as Htp.
  { destruct (decide (tp = 0%Z)) as [Hz|]; [|lia].
    unfold r_train in Hlt. rewrite (ratio_zero tp tn Hz) in Hlt. lra. }
  split_and!; [|done|].
  - apply round_pos_lt. unfold of_int.
    change (inject_Z 1) with 1. rewrite round_one. lra.
  - by apply round_pos_lt, inject_Z_pos_b64.
Qed.

(** Divisors met in the branch that removes negative samples. *)
Lemma divisors_lt_b64 tp tn vp vn :
  counts tp tn vp vn → r_train tp tn < r_val vp vn →
  0 < r_val vp vn ∧ (0 < tn)%Z ∧ 0 < of_int tn.
Proof.
  intros Hc Hlt.
  pose proof (r_train_bounds_b64 _ _ _ _ Hc) as [Ht0 _].
  pose proof (r_val_bounds_b64 _ _ _ _ Hc) as [_ Hv1].
  destruct Hc as (?&?&?&?&?&?).
  assert (0 < tn)%Z as Htn.
  { destruct (decide (tn = 0%Z)) as [Hz|]; [|lia].
    unfold r_train in Hlt. rewrite (ratio_one tp tn) in Hlt by lia. lra. }
  split_and!; [lra|done|].
  by apply round_pos_lt, inject_Z_pos_b64.
Qed.

Lemma eval_gt_b64 tp tn vp vn :
  counts tp tn vp vn → r_val vp vn < r_train tp tn →
  determine_subset_fraction tp tn vp vn
  = Ok (round (round (mul (r_val vp vn) (of_int tn)
                      / sub (of_int 1) (r_val vp vn))
               / of_int tp)).
Proof.
  intros Hc Hlt. rewrite determine_subset_fraction_branches_b64 by done.
  destruct (divisors_gt_b64 _ _ _ _ Hc Hlt) as (H1 & _ & H2).
  apply gt_spec_b64 in Hlt as ->.
  rewrite div_ok by lra. cbn. rewrite div_ok by lra. done.
Qed.

Lemma eval_lt_b64 tp tn vp vn :
  counts tp tn vp vn → r_train tp tn < r_val vp vn →
  determine_subset_fraction tp tn vp vn
  = Ok (round (round (sub (of_int tp) (mul (r_val vp vn) (of_int tp))
                      / r_val vp vn)
               / of_int tn)).
Proof.
  intros Hc Hlt. rewrite determine_subset_fraction_branches_b64 by done.
  destruct (divisors_lt_b64 _ _ _ _ Hc Hlt) as (H1 & _ & H2).
  assert (gt (r_train tp tn) (r_val vp vn) = false) as ->.
  { apply not_true_iff_false. rewrite gt_spec_b64. lra. }
  apply lt_spec_b64 in Hlt as ->.
  rewrite div_ok by lra. cbn. rewrite div_ok by lra. done.
Qed.

Lemma eval_eq_b64 tp tn vp vn :
  counts tp tn vp vn → r_train tp tn == r_val vp vn →
  determine_subset_fraction tp tn vp vn = Raise UnboundLocalError.
Proof.
  intros Hc Heq. rewrite determine_subset_fraction_branches_b64 by done.
  assert (gt (r_train tp tn) (r_val vp vn) = false) as ->.
  { apply not_true_iff_false. rewrite gt_spec_b64. lra. }
  assert (lt (r_train tp tn) (r_val vp vn) = false) as ->.
  { apply not_true_iff_false. rewrite lt_spec_b64. lra. }
  done.
Qed.

(** Counts are binary64 numbers. *)
Lemma count_exact tp tn vp vn :
  counts tp tn vp vn →
  of_int tp == inject_Z tp ∧ of_int tn == inject_Z tn ∧
  0 <= inject_Z tp ∧ 0 <= inject_Z tn.
Proof.
  intros (?&?&?&?&?&?).
  split_and!; try apply of_int_exact; try apply inject_Z_nonneg_b64; lia.
Qed.

Lemma one_minus (r : Q) :
  0 <= r <= 1 → sub (of_int 1) r == round (1 - r) ∧ 0 <= round (1 - r).
Proof.
  intros [? ?]. unfold sub, of_int. change (inject_Z 1) with 1. split.
  - apply round_comp; rewrite round_one; [lra|done].
  - apply round_nonneg. lra.
Qed.

Lemma mul_count (r : Q) (z : Z) :
  0 <= r → (0 ≤ z ≤ 2 ^ 53)%Z →
  mul r (of_int z) == round (r * inject_Z z) ∧ 0 <= round (r * inject_Z z).
Proof.
  intros Hr Hz. pose proof (of_int_exact z Hz) as Hexact.
  pose proof (inject_Z_nonneg_b64 z (proj1 Hz)) as Hnn.
  assert (0 <= r * inject_Z z) by (by apply Qmult_le_0_compat).
  unfold mul. split; [|by apply round_nonneg].
  apply round_comp; by rewrite Hexact.
Qed.

(** Rounding a quotient of non-negative numbers. *)
Lemma round_div (a a' b b' : Q) :
  0 <= a → 0 < b → a == a' → b == b' →
  round (a / b) == round (a' / b') ∧ 0 <= round (a' / b').
Proof.
  intros Ha Hb Haa Hbb.
  assert (0 <= a / b) as Hq by (apply Qle_shift_div_l; lra).
  assert (a / b == a' / b') as Heq by (by rewrite Haa, Hbb).
  split; [by apply round_comp|]. apply round_nonneg. by rewrite <- Heq.
Qed.

(** The value of the positive branch is the rounded first formula. *)
Lemma positive_branch tp tn vp vn :
  counts tp tn vp vn → r_val vp vn < r_train tp tn →
  round (round (mul (r_val vp vn) (of_int tn) / sub (of_int 1) (r_val vp vn))
         / of_int tp)
  == keep_positive (r_val vp vn) tn tp ∧
  0 <= keep_positive (r_val vp vn) tn tp.
Proof.
  intros Hc Hlt. unfold keep_positive.
  destruct (divisors_gt_b64 _ _ _ _ Hc Hlt) as (Hsub & _ & Htp).
  pose proof (r_val_bounds_b64 _ _ _ _ Hc) as Hv.
  destruct (count_exact _ _ _ _ Hc) as (Hetp & Hetn & _ & _).
  destruct (one_minus _ Hv) as [Hone _].
  destruct (mul_count (r_val vp vn) tn) as [Hmul Hmul0];
    [lra|destruct Hc as (?&?&?&?&?&?); lia|].
  assert (0 <= mul (r_val vp vn) (of_int tn)) as Hm0 by (by rewrite Hmul).
  destruct (round_div _ _ _ _ Hm0 Hsub Hmul Hone) as [Hq Hq0].
  apply round_div; [by rewrite Hq|done..].
Qed.

(** The value of the negative branch is the rounded second formula, as
    the code writes it. *)
Lemma negative_branch tp tn vp vn :
  counts tp tn vp vn → r_train tp tn < r_val vp vn →
  round (round (sub (of_int tp) (mul (r_val vp vn) (of_int tp)) / r_val vp vn)
         / of_int tn)
  == keep_negative_code (r_val vp vn) tp tn ∧
  0 <= keep_negative_code (r_val vp vn) tp tn.
Proof.
  intros Hc Hlt. unfold keep_negative_code.
  destruct (divisors_lt_b64 _ _ _ _ Hc Hlt) as (Hrv & _ & Htn).
  pose proof (r_val_bounds_b64 _ _ _ _ Hc) as Hv.
  destruct (count_exact _ _ _ _ Hc) as (Hetp & Hetn & Htp0 & _).
  assert (0 ≤ tp ≤ 2 ^ 53)%Z as Hbound
    by (destruct Hc as (?&?&?&?&?&?); lia).
  destruct (mul_count (r_val vp vn) tp) as [Hmul Hmul0]; [lra|done|].
  assert (round (r_val vp vn * inject_Z tp) <= inject_Z tp) as Hle.
  { rewrite <- (round_int tp Hbound) at 2. apply round_mono.
    - apply Qmult_le_0_compat; lra.
    - assert (r_val vp vn * inject_Z tp <= 1 * inject_Z tp)
        by (apply Qmult_le_compat_r; lra). lra. }
  assert (sub (of_int tp) (mul (r_val vp vn) (of_int tp))
          == round (inject_Z tp - round (r_val vp vn * inject_Z tp))
          ∧ 0 <= round (inject_Z tp - round (r_val vp vn * inject_Z tp)))
    as [Hsub Hsub0].
  { unfold sub. split; [|apply round_nonneg; lra].
    apply round_comp; rewrite Hmul, Hetp; [lra|done]. }
  assert (0 <= sub (of_int tp) (mul (r_val vp vn) (of_int tp))) as Hs0
    by (by rewrite Hsub).
  destruct (round_div _ _ _ _ Hs0 Hrv Hsub (Qeq_refl (r_val vp vn)))
    as [Hq Hq0].
  apply round_div; [by rewrite Hq|done..].
Qed.

(** The largest binary64 number below 1. *)
Lemma round_below_one :
  round (9007199254740991 # 9007199254740992)
  == 9007199254740991 # 9007199254740992.
Proof. by vm_compute. Qed.

(** With a negative sample in a pool of at most [2^53], the rounded
    ratio stays below 1. *)
Lemma ratio_below_one (p n : Z) :
  (0 ≤ p)%Z → (0 < n)%Z → (p + n ≤ 2 ^ 53)%Z →
  round (inject_Z p / inject_Z (p + n)) < 1.
Proof.
  intros Hp%inject_Z_nonneg_b64 Hn Hb.
  assert (1 <= inject_Z n) as Hn1.
  { change 1 with (inject_Z 1). rewrite <- Zle_Qle. lia. }
  assert (inject_Z (p + n) <= inject_Z (2 ^ 53)) as Hb' by (by rewrite <- Zle_Qle).
  rewrite inject_Z_plus in *.
  change (inject_Z (2 ^ 53)) with (9007199254740992 # 1) in Hb'.
  apply Qle_lt_trans with (9007199254740991 # 9007199254740992); [|done].
  rewrite <- round_below_one. apply round_mono.
  - apply Qle_shift_div_l; lra.
  - apply Qle_shift_div_r; lra.
Qed.

End Balance64Facts.

(** The rounding of [Binary64] against the primitive floats: the two
    transcriptions of [determine_subset_fraction] have the same outcome
    on every input with counts below 6, and on inputs where the rounding
    matters. *)
Module Float64Facts.
Import Float64.

Example agree_on_small_counts : forallb agree_at (grid 6) = true.
Proof. by vm_compute. Qed.

Example agree_on_large_counts :
  forallb agree_at
    [(96072341, 1, 96072342, 1); (268444419, 1, 268444420, 1);
     (240, 60, 10, 90); (80, 20, 10, 90); (3, 1, 4, 1); (1, 3, 1, 4);
     (4503599627370495, 1, 4503599627370494, 1);
     (9007199254740991, 1, 1, 9007199254740991);
     (1, 9007199254740991, 9007199254740991, 1);
     (123456789, 987654321, 192837465, 564738291);
     (33554433, 67108865, 134217729, 268435457);
     (7, 9007199254740985, 3, 4503599627370493)]%Z = true.
Proof. by vm_compute. Qed.

End Float64Facts.

Module Balance64Spec.
Import Binary64 Binary64Facts Balance64 Balance64Facts.
Local Open Scope Q_scope.

(** C1 (as stated, refuted). The formulas of the claim are not what the
    function returns.  At (96072341, 1, 96072342, 1) the training ratio
    is below the validation ratio, but both round to the same float and
    the function raises instead of returning.  At (3, 1, 4, 1) it returns
    0.74999999999999956, which is neither the exact value 3/4 of the
    second formula nor that formula evaluated in floats,
    0.74999999999999978: the code computes
    [train_pos - r_val * train_pos], not [train_pos * (1 - r_val)]. *)
Lemma formula_not_exact :
  counts 96072341 1 96072342 1 ∧
  inject_Z 96072341 / inject_Z (96072341 + 1)
    < inject_Z 96072342 / inject_Z (96072342 + 1) ∧
  determine_subset_fraction 96072341 1 96072342 1 = Raise UnboundLocalError ∧
  counts 3 1 4 1 ∧
  r_train 3 1 < r_val 4 1 ∧
  determine_subset_fraction 3 1 4 1
    = Ok (1688849860263935 # 2251799813685248) ∧
  keep_negative (r_val 4 1) 3 1 == 3377699720527871 # 4503599627370496 ∧
  inject_Z 3 * (1 - inject_Z 4 / inject_Z (4 + 1)) / (inject_Z 4 / inject_Z (4 + 1))
    / inject_Z 1 == 3 # 4.
Proof. unfold counts. split_and!; try lia; by vm_compute. Qed.

(** C1 (amended). With non-negative counts and both pools non-empty and
    of at most [2^53] samples, and with [r_train] and [r_val] the two
    ratios as floats: when [r_train > r_val] the function returns
    [(r_val * train_neg / (1 - r_val)) / train_pos] with every operation
    rounded, the share of the positive class to keep; when
    [r_train < r_val] it returns
    [((train_pos - r_val * train_pos) / r_val) / train_neg] with every
    operation rounded, the share of the negative class to keep. *)
Theorem determine_subset_fraction_rounded tp tn vp vn :
  counts tp tn vp vn →
  (r_val vp vn < r_train tp tn →
   ∃ q, determine_subset_fraction tp tn vp vn = Ok q ∧
        q == keep_positive (r_val vp vn) tn tp) ∧
  (r_train tp tn < r_val vp vn →
   ∃ q, determine_subset_fraction tp tn vp vn = Ok q ∧
        q == keep_negative_code (r_val vp vn) tp tn).
Proof.
  intros Hc. split; intros Hlt.
  - eexists. split; [by apply eval_gt_b64|]. by apply positive_branch.
  - eexists. split; [by apply eval_lt_b64|]. by apply negative_branch.
Qed.

Lemma determine_subset_fraction_rounded_witness :
  (∃ q, determine_subset_fraction 80 20 10 90 = Ok q ∧
        q == keep_positive (r_val 10 90) 20 80) ∧
  (∃ q, determine_subset_fraction 3 1 4 1 = Ok q ∧
        q == keep_negative_code (r_val 4 1) 3 1).
Proof.
  split.
  - apply (determine_subset_fraction_rounded 80 20 10 90).
    + unfold counts. lia.
    + by vm_compute.
  - apply (determine_subset_fraction_rounded 3 1 4 1).
    + unfold counts. lia.
    + by vm_compute.
Defined.

(** C2 (as stated, refuted). An all-negative and an all-positive
    validation pool are not rejected: the function returns the fraction
    0 for both. *)
Lemma degenerate_returns :
  determine_subset_fraction 3 1 0 2 = Ok 0 ∧
  determine_subset_fraction 1 3 2 0 = Ok 0.
Proof. split; by vm_compute. Qed.

(** C2 (amended). With non-negative training counts and pools of at most
    [2^53] samples: when the validation pool is all negative and the
    training pool holds a positive sample, or the validation pool is all
    positive and the training pool holds a negative sample, the function
    raises nothing and the fraction returned is 0. *)
Theorem degenerate_validation_zero tp tn vp vn :
  (0 ≤ tp)%Z → (0 ≤ tn)%Z → (tp + tn ≤ 2 ^ 53)%Z → (vp + vn ≤ 2 ^ 53)%Z →
  (vp = 0 ∧ 0 < vn ∧ 0 < tp)%Z ∨ (vn = 0 ∧ 0 < vp ∧ 0 < tn)%Z →
  ∃ q, determine_subset_fraction tp tn vp vn = Ok q ∧ q == 0.
Proof.
  intros Htp Htn Hbt Hbv [(-> & Hvn & Hpos)|(-> & Hvp & Hpos)].
  - assert (counts tp tn 0 vn) as Hc by (unfold counts; lia).
    assert (r_val 0 vn = 0) as Hr by (by apply ratio_zero).
    assert (r_val 0 vn < r_train tp tn) as Hlt.
    { rewrite Hr. apply round_pos_lt. apply Qlt_shift_div_l.
      - apply inject_Z_pos_b64. lia.
      - rewrite Qmult_0_l. by apply inject_Z_pos_b64. }
    eexists. split; [by apply eval_gt_b64|].
    destruct (positive_branch _ _ _ _ Hc Hlt) as [-> _].
    rewrite Hr. unfold keep_positive.
    rewrite (round_zero (0 * inject_Z tn)) by ring.
    rewrite (round_zero (0 / round (1 - 0))) by apply Qmult_0_l.
    by rewrite (round_zero (0 / inject_Z tp)) by apply Qmult_0_l.
  - assert (counts tp tn vp 0) as Hc by (unfold counts; lia).
    assert (r_val vp 0 == 1) as Hr by (by apply ratio_one).
    assert (r_train tp tn < r_val vp 0) as Hlt.
    { rewrite Hr. by apply ratio_below_one. }
    eexists. split; [by apply eval_lt_b64|].
    destruct (negative_branch _ _ _ _ Hc Hlt) as [-> _].
    unfold keep_negative_code.
    assert (round (r_val vp 0 * inject_Z tp) == inject_Z tp) as Hmul.
    { rewrite <- (round_int tp) at 2 by lia. apply round_comp.
      - rewrite Hr. apply inject_Z_nonneg_b64 in Htp. lra.
      - rewrite Hr. ring. }
    rewrite (round_zero (inject_Z tp - round (r_val vp 0 * inject_Z tp)))
      by (rewrite Hmul; ring).
    rewrite (round_zero (0 / r_val vp 0)) by apply Qmult_0_l.
    by rewrite (round_zero (0 / inject_Z tn)) by apply Qmult_0_l.
Qed.

Lemma degenerate_validation_zero_witness :
  (∃ q, determine_subset_fraction 3 1 0 2 = Ok q ∧ q == 0) ∧
  (∃ q, determine_subset_fraction 1 3 2 0 = Ok q ∧ q == 0).
Proof.
  split.
  - apply (degenerate_validation_zero 3 1 0 2);
      [lia|lia|by vm_compute|by vm_compute|left; lia].
  - apply (degenerate_validation_zero 1 3 2 0);
      [lia|lia|by vm_compute|by vm_compute|right; lia].
Defined.

(** C4 (as stated, refuted). The fraction returned can exceed 1: at
    (268444419, 1, 268444420, 1) the two ratios differ as floats and the
    function returns 1.0000000037251660. *)
Lemma above_one :
  counts 268444419 1 268444420 1 ∧
  ¬ r_train 268444419 1 == r_val 268444420 1 ∧
  determine_subset_fraction 268444419 1 268444420 1
    = Ok (281474977759197 # 281474976710656) ∧
  1 < 281474977759197 # 281474976710656.
Proof. unfold counts. split_and!; try lia; by vm_compute. Qed.

(** C4 (amended). With non-negative counts, both pools non-empty and of
    at most [2^53] samples, and the two class ratios different as
    floats, the function returns a fraction that is not negative. *)
Theorem determine_subset_fraction_nonneg tp tn vp vn :
  counts tp tn vp vn →
  ¬ r_train tp tn == r_val vp vn →
  ∃ q, determine_subset_fraction tp tn vp vn = Ok q ∧ 0 <= q.
Proof.
  intros Hc Hne.
  destruct (Q_dec (r_train tp tn) (r_val vp vn)) as [[Hlt|Hgt]|Heq]; [| |done].
  - eexists. split; [by apply eval_lt_b64|].
    destruct (negative_branch _ _ _ _ Hc Hlt) as [-> ?]. done.
  - eexists. split; [by apply eval_gt_b64|].
    destruct (positive_branch _ _ _ _ Hc Hgt) as [-> ?]. done.
Qed.

Lemma determine_subset_fraction_nonneg_witness :
  ∃ q, determine_subset_fraction 268444419 1 268444420 1 = Ok q ∧ 0 <= q.
Proof.
  apply (determine_subset_fraction_nonneg 268444419 1 268444420 1).
  - unfold counts. split_and!; try lia; by vm_compute.
  - by vm_compute.
Defined.

End Balance64Spec.

Module Balance64Extra.
Import Binary64 Binary64Facts Balance64 Balance64Facts.
Local Open Scope Q_scope.

(** X18. The outcomes of [determine_subset_fraction] in binary64.  With
    non-negative training counts it raises [ZeroDivisionError] when the
    training pool or the validation pool is empty.  With non-negative
    counts and both pools non-empty and of at most [2^53] samples it
    never raises [ZeroDivisionError]; it raises [UnboundLocalError] when
    the two ratios are equal as floats, and returns a fraction when they
    differ. *)
Theorem determine_subset_fraction_outcomes tp tn vp vn :
  ((0 ≤ tp)%Z → (0 ≤ tn)%Z → (tp + tn = 0 ∨ vp + vn = 0)%Z →
   determine_subset_fraction tp tn vp vn = Raise ZeroDivisionError) ∧
  (counts tp tn vp vn →
   determine_subset_fraction tp tn vp vn ≠ Raise ZeroDivisionError ∧
   (r_train tp tn == r_val vp vn →
    determine_subset_fraction tp tn vp vn = Raise UnboundLocalError) ∧
   (¬ r_train tp tn == r_val vp vn →
    ∃ q, determine_subset_fraction tp tn vp vn = Ok q)).
Proof.
  split.
  - intros _ _ Hempty. unfold determine_subset_fraction, int_true_div.
    destruct (Z.eqb_spec (tn + tp) 0) as [Ht|Ht]; [done|].
    destruct Hempty as [?|Hv]; [lia|]. by rewrite Hv.
  - intros Hc.
    destruct (Q_dec (r_train tp tn) (r_val vp vn)) as [[Hlt|Hgt]|Heq].
    + rewrite eval_lt_b64 by done. split_and!; [done|intros ?; lra|by eexists].
    + rewrite eval_gt_b64 by done. split_and!; [done|intros ?; lra|by eexists].
    + rewrite eval_eq_b64 by done. split_and!; done.
Qed.

Lemma determine_subset_fraction_outcomes_witness :
  determine_subset_fraction 3 1 0 0 = Raise ZeroDivisionError ∧
  determine_subset_fraction 96072341 1 96072342 1 = Raise UnboundLocalError ∧
  ∃ q, determine_subset_fraction 80 20 10 90 = Ok q.
Proof.
  assert (counts 96072341 1 96072342 1) as Hc1
    by (unfold counts; split_and!; try lia; by vm_compute).
  assert (counts 80 20 10 90) as Hc2
    by (unfold counts; split_and!; try lia; by vm_compute).
  destruct (determine_subset_fraction_outcomes 3 1 0 0) as [Hzero _].
  destruct (determine_subset_fraction_outcomes 96072341 1 96072342 1)
    as [_ Hequal].
  destruct (determine_subset_fraction_outcomes 80 20 10 90) as [_ Hdiffer].
  split_and!.
  - apply Hzero; [lia|lia|by right].
  - apply (Hequal Hc1). by vm_compute.
  - apply (Hdiffer Hc2). by vm_compute.
Defined.

End Balance64Extra.

(** ** Deterministic shuffle *)

Module ShuffleFacts.
Import Shuffle.

(** Overwriting the slot that held [x] with [v] trades [x] for [v]. *)
Lemma overwrite_trades {A : Type} (l : list A) j x v :
  l !! j = Some x → x :: <[j:=v]> l ≡ₚ v :: l.
Proof.
  revert j. induction l as [|y l IH]; intros [|j] Hx; simplify_eq/=.
  - apply perm_swap.
  - rewrite perm_swap, (IH j Hx). apply perm_swap.
Qed.

(** Taking [pool[j]] out of the first [S m] items and moving [pool[m]]
    into the vacancy leaves the other [m] items in the first [m] slots. *)
Lemma vacancy_filled {A : Type} (pool : list A) m j x v :
  j ≤ m → pool !! j = Some x → pool !! m = Some v →
  x :: take m (<[j:=v]> pool) ≡ₚ take (S m) pool.
Proof.
  intros Hj Hx Hv. rewrite (take_S_r _ _ v Hv), <- Permutation_cons_append.
  destruct (decide (j = m)) as [->|Hne].
  - rewrite take_insert_ge by done. by simplify_eq.
  - rewrite take_insert_lt by lia.
    apply overwrite_trades. rewrite lookup_take_lt by lia. done.
Qed.

Section facts.
Context {A : Type} `{Countable A}.
Context (R : relation A) `{!RelDecision R}.
Context {G : Type} (randbelow : nat → G → nat * G).

(** [_randbelow(n)] returns a number below [n]. *)
Hypothesis randbelow_lt : ∀ n g, 0 < n → (randbelow n g).1 < n.

(** The selection loop draws [todo] items out of the first [m] items
    of the pool, each once. *)
Lemma sample_pool_selects (pool : list A) m todo g :
  todo ≤ m → m ≤ length pool →
  ∃ out g' rest,
    sample_pool randbelow pool m todo g = Ok (out, g') ∧
    length out = todo ∧
    out ++ rest ≡ₚ take m pool.
Proof using randbelow_lt.
  revert pool m g. induction todo as [|todo IH]; intros pool m g Htodo Hm.
  { exists [], g, (take m pool). by split_and!. }
  destruct m as [|m]; [lia|]. cbn [sample_pool].
  pose proof (randbelow_lt (S m) g) as Hj.
  destruct (randbelow (S m) g) as [j g1]. cbn in Hj.
  assert (j < S m) as Hlt by (apply Hj; lia).
  destruct (lookup_lt_is_Some_2 pool j) as [x Hx]; [lia|].
  destruct (lookup_lt_is_Some_2 pool m) as [v Hv]; [lia|].
  replace (S m - 1) with m by lia.
  unfold index. rewrite Hx, Hv, !bind_Ok.
  destruct (IH (<[j:=v]> pool) m g1) as (out & g2 & rest & -> & Hlen & Hperm);
    [lia|rewrite length_insert; lia|].
  rewrite bind_Ok. exists (x :: out), g2, rest. split_and!; [done|cbn; lia|].
  cbn. rewrite Hperm. apply vacancy_filled; [lia|done..].
Qed.

(** Sampling the whole population gives a permutation of it. *)
Lemma sample_all (population : list A) g :
  ∃ out g',
    sample randbelow population (length population) g = Ok (out, g') ∧
    out ≡ₚ population.
Proof using randbelow_lt.
  unfold sample. rewrite decide_True by done.
  destruct (sample_pool_selects population (length population)
              (length population) g)
    as (out & g' & rest & Hs & Hlen & Hperm); [done..|].
  exists out, g'. split; [done|].
  rewrite take_ge in Hperm by done.
  assert (rest = []) as ->.
  { apply Permutation_length in Hperm. rewrite length_app in Hperm.
    apply length_zero_iff_nil. lia. }
  by rewrite app_nil_r in Hperm.
Qed.

(** [sorted] does not depend on the order its input comes in. *)
Lemma sorted_canonical `{!Transitive R, !AntiSymm (=) R, !Total R}
    (l1 l2 : list A) :
  l1 ≡ₚ l2 → sorted R l1 = sorted R l2.
Proof.
  intros Hperm. unfold sorted.
  apply (Sorted_unique R); [apply Sorted_merge_sort, _..|].
  by rewrite !merge_sort_Permutation.
Qed.
End facts.
End ShuffleFacts.

Module ShuffleSpec.
Import Shuffle ShuffleFacts.

(** C10. For a total order on the elements and a random state [g]: two
    runs of [deterministic_shuffle_set] on the same set from the same
    state return the same list and the same state, in whichever order
    each run iterates over the set; and the list returned is a
    permutation of the set's elements, of length the set's size. *)
Theorem deterministic_shuffle_set_spec {A : Type} `{Countable A}
    (R : relation A) `{!RelDecision R}
    `{!Transitive R, !AntiSymm (=) R, !Total R}
    {G : Type} (randbelow : nat → G → nat * G)
    (set_ : gset A) (iteration1 iteration2 : list A) (g : G) :
  (∀ n g, 0 < n → (randbelow n g).1 < n) →
  iteration1 ≡ₚ elements set_ →
  iteration2 ≡ₚ elements set_ →
  deterministic_shuffle_set R randbelow set_ iteration1 g
  = deterministic_shuffle_set R randbelow set_ iteration2 g ∧
  ∃ out g',
    deterministic_shuffle_set R randbelow set_ iteration1 g = Ok (out, g') ∧
    out ≡ₚ elements set_ ∧
    length out = size set_.
Proof.
  intros Hrand H1 H2. unfold deterministic_shuffle_set.
  rewrite (sorted_canonical R iteration2 iteration1) by (by rewrite H1, H2).
  split; [done|].
  assert (size set_ = length (sorted R iteration1)) as Hsize.
  { unfold sorted. rewrite merge_sort_Permutation, H1. done. }
  rewrite Hsize.
  destruct (sample_all randbelow Hrand (sorted R iteration1) g)
    as (out & g' & -> & Hperm).
  exists out, g'. split_and!; [done| |].
  - rewrite Hperm. unfold sorted. by rewrite merge_sort_Permutation.
  - by rewrite Hperm.
Qed.

Lemma deterministic_shuffle_set_spec_witness :
  let randbelow := λ n g : nat, (g mod n, S g) in
  let set_ : gset string := {[ "c"; "a"; "d"; "b" ]} in
  deterministic_shuffle_set String.le randbelow set_ (elements set_) 5
  = deterministic_shuffle_set String.le randbelow set_
      (reverse (elements set_)) 5 ∧
  ∃ out g',
    deterministic_shuffle_set String.le randbelow set_ (elements set_) 5
    = Ok (out, g') ∧
    out ≡ₚ elements set_ ∧
    length out = size set_.
Proof.
  intros randbelow set_.
  apply (deterministic_shuffle_set_spec String.le randbelow set_
           (elements set_) (reverse (elements set_)) 5).
  - intros n g Hn. cbn. apply Nat.mod_upper_bound. lia.
  - reflexivity.
  - apply reverse_Permutation.
Defined.

(** One run, traced: the sorted set is [a; b; c; d] and the draws are
    1, 0, 1 and 0. *)
Example deterministic_shuffle_set_run :
  deterministic_shuffle_set String.le (λ n g : nat, (g mod n, S g))
    {[ "c"; "a"; "d"; "b" ]} ["c"; "a"; "d"; "b"] 5
  = Ok (["b"; "a"; "d"; "c"], 9).
Proof. by vm_compute. Qed.

End ShuffleSpec.

(** ** Study mapping *)

Module StudiesFacts.
Import Studies Cohort.

(** One study's accession codes, written into [m]. *)
Lemma record_codes_lookup (ids : gset string) study codes
    (m : gmap string string) s :
  foldl (record_study ids study) m codes !! s
  = if decide (s ∈ codes ∧ s ∈ ids) then Some study else m !! s.
Proof.
  revert m. induction codes as [|c codes IH]; intros m; cbn [foldl].
  { rewrite decide_False; [done|]. intros [[]%elem_of_nil _]. }
  rewrite IH. unfold record_study.
  destruct (decide (s ∈ codes ∧ s ∈ ids)) as [[Hs Hid]|Hno].
  { rewrite decide_True; [done|]. split; [by right|done]. }
  destruct (decide (c ∈ ids)) as [Hc|Hc].
  - destruct (decide (c = s)) as [->|Hne].
    + rewrite lookup_insert_eq, decide_True; [done|]. split; [by left|done].
    + rewrite lookup_insert_ne by done.
      rewrite decide_False; [done|].
      intros [[?|?]%elem_of_cons ?]; [congruence|tauto].
  - rewrite decide_False; [done|].
    intros [[?|?]%elem_of_cons ?]; [congruence|tauto].
Qed.

(** The loop over the studies, from the map [m]: it returns when every
    experiment has its codes, and a sample of interest ends with the last
    study that lists it. *)
Lemma studies_loop (ids : gset string) studies (m : gmap string string) :
  complete studies →
  ∃ m', for_each (λ sample_to_study '(study, record),
                    codes ← field (sample_accession_codes record);
                    Ok (foldl (record_study ids study) sample_to_study codes))
                 studies m = Ok m' ∧
        (∀ s, s ∉ ids → m' !! s = m !! s) ∧
        (∀ s, unlisted studies s → m' !! s = m !! s) ∧
        (∀ s study, m' !! s = Some study →
                    lists studies study s ∨ m !! s = Some study) ∧
        (∀ s study before record codes after,
           studies = before ++ (study, record) :: after →
           sample_accession_codes record = Some codes →
           s ∈ codes → s ∈ ids → unlisted after s →
           m' !! s = Some study).
Proof.
  unfold complete, unlisted, lists.
  revert m. induction studies as [|[study0 record0] studies IH]; intros m Hall.
  { exists m. split_and!; try done.
    - auto.
    - intros s study [|??] ???; discriminate. }
  apply Forall_cons in Hall as [[codes0 Hcodes0] Hall]. cbn in Hcodes0.
  rewrite for_each_cons. rewrite Hcodes0. cbn [field]. rewrite !bind_Ok.
  destruct (IH (foldl (record_study ids study0) m codes0) Hall)
    as (m' & -> & Hout & Hunl & Hsound & Hlast).
  exists m'. split_and!; [done|..].
  - intros s Hs. rewrite Hout, record_codes_lookup by done.
    rewrite decide_False; tauto.
  - intros s Hs. rewrite Hunl, record_codes_lookup.
    + rewrite decide_False; [done|]. intros [Hin _].
      apply (Hs study0). exists record0, codes0. split_and!; [by left|done..].
    + intros study (record & codes & Hin & ? & ?). apply (Hs study).
      exists record, codes. split_and!; [by right|done..].
  - intros s study Hm'. apply Hsound in Hm' as [(record & codes & ? & ? & ?)|Hm].
    + left. exists record, codes. split_and!; [by right|done..].
    + rewrite record_codes_lookup in Hm. case_decide as Hd; [|by right].
      simplify_eq. left. exists record0, codes0.
      split_and!; [by left|done|tauto].
  - intros s study before record codes after Heq Hcodes Hs Hid Hafter.
    destruct before as [|entry before]; simplify_eq/=.
    + rewrite Hunl by done. rewrite record_codes_lookup.
      rewrite decide_True; [done|]. split; [|done]. congruence.
    + by eapply Hlast.
Qed.

(** An experiment without its codes stops the loop with [KeyError]. *)
Lemma studies_loop_incomplete (ids : gset string) studies
    (m : gmap string string) :
  ¬ complete studies →
  for_each (λ sample_to_study '(study, record),
              codes ← field (sample_accession_codes record);
              Ok (foldl (record_study ids study) sample_to_study codes))
           studies m = Raise KeyError.
Proof.
  unfold complete.
  revert m. induction studies as [|[study0 record0] studies IH]; intros m Hbad.
  { destruct Hbad. constructor. }
  rewrite for_each_cons.
  destruct (sample_accession_codes record0) as [codes0|] eqn:Hcodes0; [|done].
  cbn [field]. rewrite !bind_Ok. apply IH. intros Hall. apply Hbad.
  constructor; [|done]. cbn. by rewrite Hcodes0.
Qed.

(** A sample is listed by no study, or there is a last study listing it. *)
Lemma last_listing studies s :
  unlisted studies s ∨
  ∃ study before record codes after,
    studies = before ++ (study, record) :: after ∧
    sample_accession_codes record = Some codes ∧
    s ∈ codes ∧ unlisted after s.
Proof.
  unfold unlisted, lists.
  induction studies as [|[study0 record0] studies IH].
  { left. intros study (? & ? & []%elem_of_nil & _). }
  destruct IH as [Hrest|(study & before & record & codes & after & -> & ? & ? & ?)].
  - destruct (sample_accession_codes record0) as [codes0|] eqn:Hcodes0.
    + destruct (decide (s ∈ codes0)) as [Hin|Hout].
      * right. by exists study0, [], record0, codes0, studies.
      * left. intros study (record & codes & [?|?]%elem_of_cons & ? & ?).
        -- simplify_eq. congruence.
        -- apply (Hrest study). by exists record, codes.
    + left. intros study (record & codes & [?|?]%elem_of_cons & ? & ?).
      * by simplify_eq.
      * apply (Hrest study). by exists record, codes.
  - right. by exists study, ((study0, record0) :: before), record, codes, after.
Qed.

End StudiesFacts.

Module StudiesSpec.
Import Studies StudiesFacts Cohort CohortFacts.

(** X1. When the metadata has its experiments and every experiment its
    accession codes, [map_sample_to_study] returns a mapping whose keys
    are exactly the samples of interest that some study lists, and every
    sample is mapped to a study that lists it. *)
Theorem map_sample_to_study_sound metadata sample_ids studies :
  experiments metadata = Some studies → complete studies →
  ∃ m : gmap string string,
    map_sample_to_study metadata sample_ids = Ok m ∧
    (∀ s, s ∈ dom m ↔ s ∈ sample_ids ∧ ∃ study, lists studies study s) ∧
    (∀ s study, m !! s = Some study → lists studies study s).
Proof.
  intros Hexp Hall. unfold map_sample_to_study. rewrite Hexp. cbn [field].
  rewrite bind_Ok.
  destruct (studies_loop (list_to_set sample_ids) studies ∅ Hall)
    as (m & -> & Hout & Hunl & Hsound & Hlast).
  exists m. split_and!; [done| |].
  - intros s. rewrite elem_of_dom. split.
    + intros [study Hs]. split.
      * destruct (decide (s ∈ sample_ids)) as [|Hno]; [done|].
        rewrite Hout, lookup_empty in Hs; [done|].
        by rewrite elem_of_list_to_set.
      * exists study. by destruct (Hsound s study Hs).
    + intros [Hid [study Hlisted]].
      destruct (last_listing studies s)
        as [Hno|(study' & before & record & codes & after & ? & ? & ? & ?)].
      * by destruct (Hno study).
      * exists study'. eapply Hlast; [done..| |done].
        by rewrite elem_of_list_to_set.
  - intros s study Hs. by destruct (Hsound s study Hs).
Qed.

Lemma map_sample_to_study_sound_witness :
  let studies := [("SRP1", Experiment (Some ["s1"; "s2"]));
                  ("SRP2", Experiment (Some ["s2"; "s3"]))] in
  ∃ m : gmap string string,
    map_sample_to_study (MetadataJson (Some studies)) ["s1"; "s2"; "s4"] = Ok m ∧
    (∀ s, s ∈ dom m ↔ s ∈ ["s1"; "s2"; "s4"] ∧ ∃ study, lists studies study s) ∧
    (∀ s study, m !! s = Some study → lists studies study s).
Proof.
  intros studies.
  apply (map_sample_to_study_sound (MetadataJson (Some studies))).
  - reflexivity.
  - repeat constructor; by eexists.
Defined.

(** X2. Last write wins: a sample of interest that several studies list
    is mapped to the last of them in the iteration order of the
    experiments. *)
Theorem map_sample_to_study_last_wins metadata sample_ids
    before study record codes after s :
  experiments metadata = Some (before ++ (study, record) :: after) →
  complete (before ++ (study, record) :: after) →
  sample_accession_codes record = Some codes →
  s ∈ codes → s ∈ sample_ids → unlisted after s →
  ∃ m : gmap string string,
    map_sample_to_study metadata sample_ids = Ok m ∧ m !! s = Some study.
Proof.
  intros Hexp Hall Hcodes Hs Hid Hafter.
  unfold map_sample_to_study. rewrite Hexp. cbn [field]. rewrite bind_Ok.
  destruct (studies_loop (list_to_set sample_ids) _ ∅ Hall)
    as (m & -> & _ & _ & _ & Hlast).
  exists m. split; [done|]. eapply Hlast; [done..| |done].
  by rewrite elem_of_list_to_set.
Qed.

Lemma map_sample_to_study_last_wins_witness :
  ∃ m : gmap string string,
    map_sample_to_study
      (MetadataJson (Some [("SRP1", Experiment (Some ["s1"; "s2"]));
                           ("SRP2", Experiment (Some ["s2"; "s3"]));
                           ("SRP3", Experiment (Some ["s3"]))]))
      ["s1"; "s2"; "s4"] = Ok m ∧
    m !! "s2" = Some "SRP2".
Proof.
  apply (map_sample_to_study_last_wins _ _
           [("SRP1", Experiment (Some ["s1"; "s2"]))]
           "SRP2" (Experiment (Some ["s2"; "s3"])) ["s2"; "s3"]
           [("SRP3", Experiment (Some ["s3"]))] "s2").
  - reflexivity.
  - repeat constructor; by eexists.
  - reflexivity.
  - by left.
  - right. by left.
  - intros study (record & codes & Hin & Hcodes & Hs).
    apply list_elem_of_singleton in Hin. simplify_eq/=.
    by apply list_elem_of_singleton in Hs.
Defined.

(** X3. [map_sample_to_study] raises [KeyError] when the metadata has no
    ['experiments'] and when some experiment has no
    ['sample_accession_codes'], whatever the samples of interest; in
    every other case it returns. *)
Theorem map_sample_to_study_errors metadata sample_ids :
  (experiments metadata = None →
   map_sample_to_study metadata sample_ids = Raise KeyError) ∧
  (∀ studies, experiments metadata = Some studies →
     (¬ complete studies →
      map_sample_to_study metadata sample_ids = Raise KeyError) ∧
     (complete studies →
      returns (map_sample_to_study metadata sample_ids))).
Proof.
  unfold map_sample_to_study. split.
  - by intros ->.
  - intros studies ->. cbn [field]. rewrite bind_Ok. split.
    + apply studies_loop_incomplete.
    + intros Hall.
      destruct (studies_loop (list_to_set sample_ids) studies ∅ Hall)
        as (m & -> & _).
      by exists m.
Qed.

Lemma map_sample_to_study_errors_witness :
  map_sample_to_study (MetadataJson None) ["s1"] = Raise KeyError ∧
  map_sample_to_study
    (MetadataJson (Some [("SRP1", Experiment (Some ["s1"]));
                         ("SRP2", Experiment None)])) [] = Raise KeyError ∧
  returns (map_sample_to_study
             (MetadataJson (Some [("SRP1", Experiment (Some ["s1"]))])) ["s1"]).
Proof.
  split_and!.
  - by apply (map_sample_to_study_errors (MetadataJson None) ["s1"]).
  - eapply (map_sample_to_study_errors
              (MetadataJson (Some [("SRP1", Experiment (Some ["s1"]));
                                   ("SRP2", Experiment None)])) []);
      [reflexivity|].
    intros Hall. apply Forall_cons in Hall as [_ Hall].
    apply Forall_cons in Hall as [[? Hcodes] _]. discriminate Hcodes.
  - eapply (map_sample_to_study_errors
              (MetadataJson (Some [("SRP1", Experiment (Some ["s1"]))])) ["s1"]);
      [reflexivity|].
    repeat constructor; by eexists.
Defined.

(** X4. Filtering a sample list by studies with the mapping built for
    that same list: the filter returns when every sample of the list is
    listed by some study, and raises [KeyError] when some sample of the
    list is listed by none. *)
Theorem get_samples_in_studies_after_mapping metadata samples studies wanted :
  experiments metadata = Some studies → complete studies →
  ∃ m : gmap string string,
    map_sample_to_study metadata samples = Ok m ∧
    ((∀ s, s ∈ samples → ∃ study, lists studies study s) →
     get_samples_in_studies samples wanted m
     = Ok (filter (in_studies wanted m) samples)) ∧
    ((∃ s, s ∈ samples ∧ unlisted studies s) →
     get_samples_in_studies samples wanted m = Raise KeyError).
Proof.
  intros Hexp Hall. unfold map_sample_to_study. rewrite Hexp. cbn [field].
  rewrite bind_Ok.
  destruct (studies_loop (list_to_set samples) studies ∅ Hall)
    as (m & -> & Hout & Hunl & Hsound & Hlast).
  exists m. split_and!; [done| |].
  - intros Hlisted. unfold get_samples_in_studies.
    rewrite comprehension_ok; [done|].
    intros s Hs. destruct (Hlisted s Hs) as [study0 Hstudy0].
    destruct (last_listing studies s)
      as [Hno|(study & before & record & codes & after & ? & ? & ? & ?)].
    + by destruct (Hno study0).
    + exists study. eapply Hlast; [done..| |done].
      by rewrite elem_of_list_to_set.
  - intros (s & Hs & Hno). apply comprehension_fail.
    exists s. split; [done|]. by rewrite (Hunl s Hno).
Qed.

Lemma get_samples_in_studies_after_mapping_witness :
  let studies := [("SRP1", Experiment (Some ["s1"; "s2"]));
                  ("SRP2", Experiment (Some ["s3"]))] in
  ∃ m : gmap string string,
    map_sample_to_study (MetadataJson (Some studies)) ["s1"; "s3"] = Ok m ∧
    ((∀ s, s ∈ ["s1"; "s3"] → ∃ study, lists studies study s) →
     get_samples_in_studies ["s1"; "s3"] {[ "SRP2" ]} m
     = Ok (filter (in_studies {[ "SRP2" ]} m) ["s1"; "s3"])) ∧
    ((∃ s, s ∈ ["s1"; "s3"] ∧ unlisted studies s) →
     get_samples_in_studies ["s1"; "s3"] {[ "SRP2" ]} m = Raise KeyError).
Proof.
  intros studies.
  apply (get_samples_in_studies_after_mapping (MetadataJson (Some studies))).
  - reflexivity.
  - repeat constructor; by eexists.
Defined.

End StudiesSpec.

(** ** Label map loaders, further properties *)

Module LabelsMoreFacts.
Import Labels LabelsFacts.

(** One label's samples, written into [m] without a check. *)
Lemma write_loop_lookup label samples (m : gmap string string) s :
  foldl (write label) m samples !! s
  = if decide (s ∈ samples) then Some label else m !! s.
Proof.
  revert m. induction samples as [|x samples IH]; intros m; cbn [foldl].
  { rewrite decide_False; [done|]. by intros []%elem_of_nil. }
  rewrite IH. unfold write. destruct (decide (s ∈ samples)) as [Hs|Hs].
  { rewrite decide_True; [done|]. by right. }
  destruct (decide (x = s)) as [->|Hne].
  - rewrite lookup_insert_eq, decide_True; [done|]. by left.
  - rewrite lookup_insert_ne by done. rewrite decide_False; [done|].
    intros [?|?]%elem_of_cons; [congruence|done].
Qed.

(** The unchecked loops from a map [m]. *)
Lemma write_loops (l : list (string * list string)) (m : gmap string string) :
  let m' := foldl (λ m '(label, samples), foldl (write label) m samples) m l in
  (∀ s, s ∉ all_samples l → m' !! s = m !! s) ∧
  (∀ s label, m' !! s = Some label → listed l s label ∨ m !! s = Some label) ∧
  (∀ before label samples after s,
     l = before ++ (label, samples) :: after →
     s ∈ samples → s ∉ all_samples after → m' !! s = Some label).
Proof.
  unfold all_samples, listed.
  revert m. induction l as [|[label0 samples0] l IH]; intros m; cbn zeta.
  { split_and!; [done|auto|]. intros [|??] ?????; discriminate. }
  cbn [foldl].
  destruct (IH (foldl (write label0) m samples0)) as (Hout & Hsound & Hlast).
  split_and!.
  - intros s Hs. cbn in Hs. rewrite Hout, write_loop_lookup by set_solver.
    rewrite decide_False; [done|set_solver].
  - intros s label Hs. apply Hsound in Hs as [(samples & ? & ?)|Hs].
    + left. exists samples. split; [by right|done].
    + rewrite write_loop_lookup in Hs. case_decide; [|by right].
      simplify_eq. left. exists samples0. split; [by left|done].
  - intros before label samples after s Heq Hs Hafter.
    destruct before as [|entry before]; simplify_eq/=.
    + rewrite Hout by done. rewrite write_loop_lookup. by rewrite decide_True.
    + by eapply Hlast.
Qed.

(** A listed sample has a last label listing it. *)
Lemma last_label (l : list (string * list string)) s :
  s ∈ all_samples l →
  ∃ before label samples after,
    l = before ++ (label, samples) :: after ∧
    s ∈ samples ∧ s ∉ all_samples after.
Proof.
  unfold all_samples.
  induction l as [|[label0 samples0] l IH]; cbn; [by intros []%elem_of_nil|].
  intros Hs. destruct (decide (s ∈ concat l.*2)) as [Hin|Hout].
  - destruct (IH Hin) as (before & label & samples & after & -> & ? & ?).
    by exists ((label0, samples0) :: before), label, samples, after.
  - apply elem_of_app in Hs as [Hs|Hs]; [|done].
    by exists [], label0, samples0, l.
Qed.

Lemma elem_of_all_samples (l : list (string * list string)) s :
  s ∈ all_samples l ↔ ∃ label, listed l s label.
Proof.
  unfold all_samples, listed. induction l as [|[label0 samples0] l IH]; cbn.
  { split; [by intros []%elem_of_nil|]. by intros (? & ? & []%elem_of_nil & _). }
  rewrite elem_of_app, IH. split.
  - intros [Hs|(label & samples & ? & ?)].
    + exists label0, samples0. split; [by left|done].
    + exists label, samples. split; [by right|done].
  - intros (label & samples & [?|?]%elem_of_cons & ?).
    + simplify_eq. by left.
    + right. by exists label, samples.
Qed.

End LabelsMoreFacts.

Module LabelsExtra.
Import Labels LabelsFacts LabelsMoreFacts.

(** X5. On a label map in which no sample id is listed twice,
    [parse_label_file] returns a mapping with exactly one entry per
    listed sample, and a sample is mapped to a label exactly when it is
    listed under that label. *)
Theorem parse_label_file_inverts l :
  duplicate_free l →
  ∃ m : gmap string string,
    parse_label_file l = Ok m ∧
    size m = length (all_samples l) ∧
    (∀ s, s ∈ dom m ↔ s ∈ all_samples l) ∧
    (∀ s label, m !! s = Some label ↔ listed l s label).
Proof.
  intros Hnd.
  destruct (parse_label_file_duplicate_free l Hnd) as (m & Hm & Hsize & Hlook).
  exists m. split_and!; [done..| |done].
  intros s. rewrite elem_of_dom, elem_of_all_samples.
  split; intros [label Hs]; exists label; by apply Hlook.
Qed.

Lemma parse_label_file_inverts_witness :
  ∃ m : gmap string string,
    parse_label_file [("sepsis", ["GSM1"; "GSM2"]); ("healthy", ["GSM3"])] = Ok m ∧
    size m = length (all_samples [("sepsis", ["GSM1"; "GSM2"]); ("healthy", ["GSM3"])]) ∧
    (∀ s, s ∈ dom m ↔
          s ∈ all_samples [("sepsis", ["GSM1"; "GSM2"]); ("healthy", ["GSM3"])]) ∧
    (∀ s label, m !! s = Some label ↔
                listed [("sepsis", ["GSM1"; "GSM2"]); ("healthy", ["GSM3"])] s label).
Proof.
  apply (parse_label_file_inverts
           [("sepsis", ["GSM1"; "GSM2"]); ("healthy", ["GSM3"])]).
  unfold duplicate_free. cbn. by apply (bool_decide_unpack _).
Defined.

(** X6. [parse_label_file] raises exactly when some sample id is listed
    twice, be it under two labels or twice under one, and the error is
    always the failed assertion. *)
Theorem parse_label_file_raises_iff l :
  (parse_label_file l = Raise AssertionError ↔ ¬ duplicate_free l) ∧
  (∀ e, parse_label_file l = Raise e → e = AssertionError).
Proof.
  destruct (decide (duplicate_free l)) as [Hnd|Hdup].
  - destruct (parse_label_file_duplicate_free l Hnd) as (m & Hm & _).
    rewrite Hm. split; [|done]. split; [done|]. by intros [].
  - rewrite (parse_label_file_duplicate l Hdup). split; [done|].
    by intros e [= <-].
Qed.

(** X7. On a label map in which no sample id is listed twice the two
    loaders return the same mapping. *)
Theorem loaders_agree l :
  duplicate_free l →
  parse_label_file l = Ok (parse_map_file l) ∧
  size (parse_map_file l) = length (all_samples l).
Proof.
  intros Hnd.
  destruct (parse_label_file_duplicate_free l Hnd) as (m & Hm & Hsize & _).
  pose proof (parse_label_file_parse_map_file l Hnd) as Hagree.
  split; [done|]. rewrite Hm in Hagree. by simplify_eq.
Qed.

Lemma loaders_agree_witness :
  parse_label_file [("sepsis", ["GSM1"; "GSM2"]); ("healthy", ["GSM3"])]
  = Ok (parse_map_file [("sepsis", ["GSM1"; "GSM2"]); ("healthy", ["GSM3"])]) ∧
  size (parse_map_file [("sepsis", ["GSM1"; "GSM2"]); ("healthy", ["GSM3"])])
  = length (all_samples [("sepsis", ["GSM1"; "GSM2"]); ("healthy", ["GSM3"])]).
Proof.
  apply (loaders_agree [("sepsis", ["GSM1"; "GSM2"]); ("healthy", ["GSM3"])]).
  unfold duplicate_free. cbn. by apply (bool_decide_unpack _).
Defined.

(** X8. [parse_map_file] never fails: its keys are exactly the listed
    samples, every sample is mapped to a label it is listed under, and a
    sample listed more than once keeps the label of its last listing. *)
Theorem parse_map_file_last_wins l :
  (∀ s, s ∈ dom (parse_map_file l) ↔ s ∈ all_samples l) ∧
  (∀ s label, parse_map_file l !! s = Some label → listed l s label) ∧
  (∀ before label samples after s,
     l = before ++ (label, samples) :: after →
     s ∈ samples → s ∉ all_samples after →
     parse_map_file l !! s = Some label).
Proof.
  unfold parse_map_file.
  destruct (write_loops l ∅) as (Hout & Hsound & Hlast).
  split_and!; [|intros s label Hs; by destruct (Hsound s label Hs)|done].
  intros s. rewrite elem_of_dom. split.
  - intros [label Hs]. destruct (decide (s ∈ all_samples l)) as [|Hno]; [done|].
    by rewrite (Hout s Hno) in Hs.
  - intros (before & label & samples & after & Heq & ? & ?)%last_label.
    exists label. by eapply Hlast.
Qed.

End LabelsExtra.

(** ** Tissue extraction, further properties *)

Module StrMoreFacts.
Import Str StrFacts.

Lemma append_nil_r s : s +:+ "" = s.
Proof.
  induction s as [|c s IH]; [done|].
  change (String c (s +:+ "") = String c s). by rewrite IH.
Qed.

Lemma startswith_own_prefix prefix rest :
  startswith (prefix +:+ rest) prefix = true.
Proof.
  induction prefix as [|c prefix IH]; [by destruct rest|].
  change (startswith (String c (prefix +:+ rest)) (String c prefix) = true).
  cbn. by rewrite decide_True.
Qed.

Lemma contains_own_prefix needle rest : contains needle (needle +:+ rest) = true.
Proof.
  pose proof (startswith_own_prefix needle rest) as Hstart.
  destruct (needle +:+ rest); cbn [contains]; by rewrite Hstart.
Qed.

(** Looking for one character. *)
Lemma contains_char_cons sep c s :
  contains (String sep "") (String c s)
  = if decide (sep = c) then true else contains (String sep "") s.
Proof. cbn. case_decide; [by destruct s|done]. Qed.

Lemma split_without sep s :
  contains (String sep "") s = false → split sep s = [s].
Proof.
  induction s as [|c s IH]; [done|]. rewrite contains_char_cons.
  case_decide as Hc; [done|]. intros Hs. cbn.
  rewrite decide_False by congruence. by rewrite IH.
Qed.

Lemma split_at_first sep before rest :
  contains (String sep "") before = false →
  split sep (before +:+ String sep rest) = before :: split sep rest.
Proof.
  induction before as [|c before IH].
  - intros _. change (split sep (String sep rest) = "" :: split sep rest).
    cbn. by rewrite decide_True.
  - rewrite contains_char_cons. case_decide as Hc; [done|]. intros Hs.
    change (split sep (String c (before +:+ String sep rest))
            = String c before :: split sep rest).
    cbn. rewrite decide_False by congruence. by rewrite IH.
Qed.

(** No field of a split contains the separator. *)
Lemma split_fields_without sep s f :
  f ∈ split sep s → contains (String sep "") f = false.
Proof.
  revert f. induction s as [|c s IH]; intros f; cbn.
  { by intros ->%list_elem_of_singleton. }
  case_decide as Hc.
  - intros [->|Hf]%elem_of_cons; [done|by apply IH].
  - destruct (split sep s) as [|head tail]; cbn.
    + intros ->%list_elem_of_singleton. rewrite contains_char_cons.
      by rewrite decide_False by congruence.
    + intros [->|Hf]%elem_of_cons.
      * rewrite contains_char_cons, decide_False by congruence.
        apply IH. by left.
      * apply IH. by right.
Qed.

(** Character facts, by cases on the eight bits. *)
Lemma lower_char_idemp c : lower_char (lower_char c) = lower_char c.
Proof. by destruct c as [[] [] [] [] [] [] [] []]. Qed.

Lemma isspace_lower_char c : isspace (lower_char c) = isspace c.
Proof. by destruct c as [[] [] [] [] [] [] [] []]. Qed.

Lemma lower_char_colon c : lower_char c = ":"%char → c = ":"%char.
Proof. by destruct c as [[] [] [] [] [] [] [] []]. Qed.

Lemma lower_idemp s : lower (lower s) = lower s.
Proof.
  induction s as [|c s IH]; [done|]. cbn. by rewrite lower_char_idemp, IH.
Qed.

Lemma lstrip_lower s : lstrip (lower s) = lower (lstrip s).
Proof.
  induction s as [|c s IH]; [done|]. cbn. rewrite isspace_lower_char.
  by destruct (isspace c).
Qed.

Lemma rstrip_lower s : rstrip (lower s) = lower (rstrip s).
Proof.
  induction s as [|c s IH]; [done|]. cbn. rewrite IH, isspace_lower_char.
  destruct (rstrip s); cbn; [by destruct (isspace c)|done].
Qed.

Lemma strip_lower s : strip (lower s) = lower (strip s).
Proof. unfold strip. by rewrite lstrip_lower, rstrip_lower. Qed.

Lemma rstrip_idemp s : rstrip (rstrip s) = rstrip s.
Proof.
  induction s as [|c s IH]; [done|]. cbn.
  destruct (rstrip s) as [|d r] eqn:E.
  - destruct (isspace c) eqn:Hc; [done|]. cbn. by rewrite Hc.
  - cbn [rstrip]. cbn [rstrip] in IH. by rewrite IH.
Qed.

Lemma lstrip_head s c rest : lstrip s = String c rest → isspace c = false.
Proof.
  induction s as [|d s IH]; [done|]. cbn.
  destruct (isspace d) eqn:Hd; [done|]. by intros [= <- _].
Qed.

Lemma rstrip_head c s :
  isspace c = false → ∃ rest, rstrip (String c s) = String c rest.
Proof.
  intros Hc. cbn. destruct (rstrip s); [rewrite Hc|]; by eexists.
Qed.

Lemma lstrip_rstrip_lstrip s : lstrip (rstrip (lstrip s)) = rstrip (lstrip s).
Proof.
  destruct (lstrip s) as [|c u] eqn:E; [done|].
  pose proof (lstrip_head _ _ _ E) as Hc.
  destruct (rstrip_head c u Hc) as [rest ->]. cbn. by rewrite Hc.
Qed.

Lemma strip_idemp s : strip (strip s) = strip s.
Proof. unfold strip. by rewrite lstrip_rstrip_lstrip, rstrip_idemp. Qed.

Lemma lstrip_without sep s :
  contains (String sep "") s = false →
  contains (String sep "") (lstrip s) = false.
Proof.
  induction s as [|c s IH]; [done|]. intros Hs. cbn.
  destruct (isspace c); [|done]. apply IH.
  rewrite contains_char_cons in Hs. by case_decide.
Qed.

Lemma rstrip_without sep s :
  contains (String sep "") s = false →
  contains (String sep "") (rstrip s) = false.
Proof.
  induction s as [|c s IH]; [done|]. rewrite contains_char_cons.
  case_decide as Hc; [done|]. intros Hs. cbn.
  destruct (rstrip s) as [|d r] eqn:E.
  - destruct (isspace c); [done|].
    by rewrite contains_char_cons, decide_False.
  - rewrite contains_char_cons, decide_False by done. by apply IH.
Qed.

Lemma lower_without_colon s :
  contains ":" s = false → contains ":" (lower s) = false.
Proof.
  induction s as [|c s IH]; [done|]. cbn [lower].
  rewrite !contains_char_cons. case_decide as Hc; [done|]. intros Hs.
  rewrite decide_False; [by apply IH|].
  intros Heq. symmetry in Heq. by apply lower_char_colon in Heq.
Qed.

(** What stripping and lower-casing a split field gives is in normal
    form. *)
Lemma normal_form s second :
  second ∈ split ":" s →
  let t := lower (strip second) in
  strip t = t ∧ lower t = t ∧ contains ":" t = false.
Proof.
  intros Hfield. cbn zeta. split_and!.
  - by rewrite strip_lower, strip_idemp.
  - apply lower_idemp.
  - apply lower_without_colon. unfold strip.
    apply rstrip_without, lstrip_without.
    by eapply split_fields_without.
Qed.

End StrMoreFacts.

Module TissueMoreFacts.
Import Cohort StrFacts StrMoreFacts TissueFacts.

(** A tissue found by the scan comes from a second field. *)
Lemma scan_found ch1 t :
  scan_characteristics ch1 = Ok (Some t) →
  ∃ c second, c ∈ ch1 ∧ Str.split ":" c !! 1 = Some second ∧
              t = Str.lower (Str.strip second).
Proof.
  induction ch1 as [|c ch1 IH]; [done|]. cbn.
  destruct (Str.contains "tissue:" c) eqn:Hc.
  - destruct (marker_second c Hc) as [second Hsecond].
    rewrite (index_Some _ _ _ Hsecond). intros [= <-].
    exists c, second. split_and!; [by left|done..].
  - intros (c' & second & ? & ? & ?)%IH. exists c', second.
    split_and!; [by right|done..].
Qed.

Lemma get_tissue_found sm sample t :
  get_tissue sm sample = Ok (Some t) →
  ∃ ch1, scan_characteristics ch1 = Ok (Some t).
Proof.
  unfold get_tissue, get_tissue_try, getitem.
  destruct (sm !! sample) as [[[[|[[ch1|]] rest]|]]|]; cbn; try done.
  destruct (scan_characteristics ch1) as [[t'|]|[]] eqn:E; try done.
  intros [= <-]. by exists ch1.
Qed.


End TissueMoreFacts.

Module TissueExtra.
Import Cohort StrMoreFacts TissueFacts TissueMoreFacts.

(** X10. A tissue returned by [get_tissue] is in normal form: stripping
    it or lower-casing it again changes nothing, and it contains no
    colon. *)
Theorem get_tissue_normal_form (sm : gmap string sample_record) sample t :
  get_tissue sm sample = Ok (Some t) →
  Str.strip t = t ∧ Str.lower t = t ∧ Str.contains ":" t = false.
Proof.
  intros [ch1 (c & second & _ & Hsecond & ->)%scan_found]%get_tissue_found.
  apply (normal_form c). by eapply list_elem_of_lookup_2.
Qed.

Lemma get_tissue_normal_form_witness :
  Str.strip "whole blood" = "whole blood" ∧
  Str.lower "whole blood" = "whole blood" ∧
  Str.contains ":" "whole blood" = false.
Proof.
  apply (get_tissue_normal_form
           {[ "GSM1" := SampleRecord
                          (Some [Annotation (Some ["tissue: Whole Blood "])]) ]}
           "GSM1").
  unfold get_tissue, get_tissue_try, getitem.
  by rewrite lookup_singleton_eq.
Defined.

End TissueExtra.

(** ** Cohort selection, further properties *)

Module CohortMoreFacts.
Import Cohort CohortFacts TissueFacts TissueMoreFacts.


End CohortMoreFacts.

Module CohortExtra.
Import Cohort CohortFacts TissueFacts TissueMoreFacts CohortMoreFacts.



End CohortExtra.

Module ResolverMoreFacts.
Import Unicode UnicodeFacts Resolver ResolverFacts.

Lemma blood_keys_normalised :
  Forall (λ k, strip k = k ∧ (COLON ∉ k) ∧ Forall (λ x, (x < 128)%N) k ∧
               (ascii_lower <$> k) = k) BLOOD_KEYS.
Proof. apply (bool_decide_unpack _). by vm_compute. Qed.

Lemma marker_field (a tail : text) :
  MARKER ++ a ++ tail = encode "tissue" ++ COLON :: (a ++ tail).
Proof. reflexivity. Qed.

End ResolverMoreFacts.

Module ResolverExtra.
Import Unicode UnicodeFacts Resolver ResolverFacts ResolverMoreFacts.

(** X12. No entry of [BLOOD_KEYS] is dead: every entry is colon-free and
    unchanged by [strip] and [lower], and a sample of
    [metadata['samples']] whose first marked characteristic is
    ['tissue:'] followed by a colon-free text that strips and
    lower-cases to an entry is in the cohort, labeled or not. *)
Theorem blood_sample_selected (lower : text → text) metadata
    (sample_to_label : gmap string string) sample_metadata sample record
    first rest before a tail after k :
  lowers_ascii lower →
  k ∈ BLOOD_KEYS →
  samples metadata = Some sample_metadata →
  sample_metadata !! sample = Some record →
  refinebio_annotations record = Some (first :: rest) →
  characteristics_ch1 first = Some (before ++ (MARKER ++ a ++ tail) :: after) →
  unmarked before →
  COLON ∉ a →
  (tail = [] ∨ ∃ b, tail = COLON :: b) →
  lower (strip a) = k →
  (strip k = k ∧ lower k = k ∧ COLON ∉ k) ∧
  ∃ ids, get_blood_sample_ids lower metadata sample_to_label = Ok ids ∧
         sample ∈ ids.
Proof.
  intros Hlower Hk Hsamples Hrec Hann Hch1 Hbefore Ha Htail Hlow.
  pose proof (proj1 (Forall_forall _ _) blood_keys_normalised k Hk)
    as (Hstrip & Hcolon & Hascii & Hfix).
  split.
  { split_and!; [done| |done]. by rewrite (Hlower k Hascii). }
  assert (get_tissue lower sample_metadata sample = Ok (Some k)) as Htissue.
  { assert (occurs MARKER (MARKER ++ a ++ tail)) as Hocc
      by (by exists [], (a ++ tail)).
    assert (split COLON (MARKER ++ a ++ tail) !! 1 = Some a) as Hsplit.
    { rewrite marker_field. apply split_second_text; [|done|done].
      apply (bool_decide_unpack _). by vm_compute. }
    revert Hch1 Hocc Hsplit. generalize (MARKER ++ a ++ tail).
    intros c Hch1 Hocc Hsplit.
    unfold get_tissue, get_tissue_try, getitem. rewrite Hrec. cbn.
    rewrite Hann. cbn. rewrite Hch1. cbn.
    rewrite (scan_first_text lower before c after a); [|done..].
    by rewrite Hlow. }
  unfold get_blood_sample_ids. rewrite Hsamples. cbn [field]. rewrite bind_Ok.
  destruct (collect_unlabeled_text lower sample_metadata (dom sample_to_label)
              (map_to_list sample_metadata).*1 ∅) as (U & -> & HU).
  eexists. split; [done|].
  destruct (decide (sample ∈ dom sample_to_label)) as [Hin|Hout].
  - apply elem_of_union. by left.
  - apply elem_of_union. right. apply HU. right. split_and!; [|by exists k|done].
    apply elem_of_keys_text. apply elem_of_dom. by exists record.
Qed.

Lemma blood_sample_selected_witness :
  let lower : text → text := fmap ascii_lower in
  let sm : gmap string sample_record :=
    {[ "GSM1" := SampleRecord
                   (Some [Annotation
                            (Some [encode "age: 60";
                                   MARKER ++ (encode " Whole Blood" ++ [160%N])
                                          ++ encode ":x"])]) ]} in
  let k := encode "whole blood" in
  (strip k = k ∧ lower k = k ∧ COLON ∉ k) ∧
  ∃ ids, get_blood_sample_ids lower (Metadata (Some sm)) ∅ = Ok ids ∧
         "GSM1" ∈ ids.
Proof.
  intros lower sm k.
  apply (blood_sample_selected lower (Metadata (Some sm)) ∅ sm "GSM1"
           (SampleRecord
              (Some [Annotation
                       (Some [encode "age: 60";
                              MARKER ++ (encode " Whole Blood" ++ [160%N])
                                     ++ encode ":x"])]))
           (Annotation
              (Some [encode "age: 60";
                     MARKER ++ (encode " Whole Blood" ++ [160%N])
                            ++ encode ":x"]))
           [] [encode "age: 60"] (encode " Whole Blood" ++ [160%N])
           (encode ":x") [] k).
  - done.
  - apply (bool_decide_unpack _). by vm_compute.
  - done.
  - apply lookup_singleton_eq.
  - done.
  - done.
  - constructor; [|constructor]. intros Hocc%contains_spec. by vm_compute in Hocc.
  - apply (bool_decide_unpack _). by vm_compute.
  - right. by exists (encode "x").
  - by vm_compute.
Defined.

End ResolverExtra.

(** ** Deterministic shuffle, further properties *)

Module ShuffleMoreFacts.
Import Shuffle ShuffleFacts Relabel.

Section relabel.
Context {A B : Type} `{Countable A, Countable B}.
Context (R : relation A) (R' : relation B) `{!RelDecision R, !RelDecision R'}.
Context {G : Type} (randbelow : nat → G → nat * G).
Context (f : A → B).

(** The selection loop looks at positions only. *)
Lemma sample_pool_renamed (pool : list A) m todo g :
  sample_pool randbelow (f <$> pool) m todo g
  = renamed f (sample_pool randbelow pool m todo g).
Proof.
  revert pool m g. induction todo as [|todo IH]; intros pool m g; [done|].
  cbn [sample_pool]. destruct (randbelow m g) as [j g1].
  unfold index. rewrite !list_lookup_fmap.
  destruct (pool !! j) as [x|]; [|done].
  destruct (pool !! (m - 1)) as [v|]; [|done].
  cbn [fmap option_fmap option_map]. rewrite !bind_Ok.
  rewrite <- list_fmap_insert, IH.
  by destruct (sample_pool randbelow (<[j:=v]> pool) (m - 1) todo g1)
    as [[out g2]|].
Qed.

Lemma sample_renamed (population : list A) k g :
  sample randbelow (f <$> population) k g
  = renamed f (sample randbelow population k g).
Proof.
  unfold sample. rewrite length_fmap. case_decide; [|done].
  apply sample_pool_renamed.
Qed.

(** Sorting commutes with a renaming that preserves the order. *)
Lemma sorted_renamed `{!Total R, !Transitive R', !AntiSymm (=) R', !Total R'}
    (l : list A) :
  (∀ x y, R x y → R' (f x) (f y)) →
  sorted R' (f <$> l) = f <$> sorted R l.
Proof.
  intros Hmono. unfold sorted. apply (Sorted_unique R').
  - apply Sorted_merge_sort, _.
  - apply (Sorted_fmap _ R); [done|]. apply Sorted_merge_sort, _.
  - by rewrite !merge_sort_Permutation.
Qed.
End relabel.

End ShuffleMoreFacts.

Module ShuffleExtra.
Import Shuffle ShuffleFacts ShuffleMoreFacts Relabel.

(** X20. The order chosen depends on the random state and on how the
    elements compare, not on what they are: when a set is renamed by a
    map that preserves the order, shuffling the renamed set from the
    same state gives the renamed output and the same final state. *)
Theorem deterministic_shuffle_set_renamed {A B : Type}
    `{Countable A, Countable B}
    (R : relation A) (R' : relation B) `{!RelDecision R, !RelDecision R'}
    `{!Total R, !Transitive R', !AntiSymm (=) R', !Total R'}
    {G : Type} (randbelow : nat → G → nat * G) (f : A → B)
    (set_ : gset A) (renamed_set : gset B)
    (iteration : list A) (renamed_iteration : list B) (g : G) :
  (∀ x y, R x y → R' (f x) (f y)) →
  elements renamed_set ≡ₚ f <$> elements set_ →
  iteration ≡ₚ elements set_ →
  renamed_iteration ≡ₚ elements renamed_set →
  deterministic_shuffle_set R' randbelow renamed_set renamed_iteration g
  = renamed f (deterministic_shuffle_set R randbelow set_ iteration g).
Proof.
  intros Hmono Hset Hit Hit'. unfold deterministic_shuffle_set.
  assert (renamed_iteration ≡ₚ f <$> iteration) as Hperm
    by (by rewrite Hit', Hset, Hit).
  assert (size renamed_set = size set_) as ->.
  { unfold size, set_size. cbn. by rewrite Hset, length_fmap. }
  rewrite (sorted_canonical R' renamed_iteration (f <$> iteration) Hperm).
  rewrite (sorted_renamed R R') by done.
  apply sample_renamed.
Qed.

Lemma deterministic_shuffle_set_renamed_witness :
  let randbelow := λ n g : nat, (g mod n, S g) in
  let double := λ n : nat, 2 * n in
  deterministic_shuffle_set le randbelow {[ 2; 4; 6 ]} [6; 2; 4] 5
  = renamed double
      (deterministic_shuffle_set le randbelow {[ 1; 2; 3 ]} [2; 3; 1] 5).
Proof.
  intros randbelow double.
  apply (deterministic_shuffle_set_renamed le le randbelow double
           {[ 1; 2; 3 ]} {[ 2; 4; 6 ]} [2; 3; 1] [6; 2; 4] 5).
  - intros x y Hxy. unfold double. lia.
  - apply (bool_decide_unpack _). by vm_compute.
  - apply (bool_decide_unpack _). by vm_compute.
  - apply (bool_decide_unpack _). by vm_compute.
Defined.

End ShuffleExtra.
